(** * ImplicitBooleanCSG: the implicit-surface evaluator and the ray marcher

    A shallow embedding of [include/ImplicitSurfaces.h] (the CPU object model),
    of the GLSL helpers the renderer splices into its fragment shader
    (sphereSDF, unionOp, smoothUnionOp, ... and [rayMarch] of
    [shaders/fragment.frag]) and of the configuration setters of
    [src/Renderer.cpp].

    Numbers.  C++ [double] and GLSL [float] values are modelled by the real
    numbers of the Standard Library: every arithmetic operation is exact, there
    is no rounding, no infinity and no NaN.  The comparisons the code performs
    ([<], [>=], [== 0]) are the decidable comparisons of [R].  C++ and GLSL
    [int] values are modelled by [Z]; the only integer arithmetic in scope is
    the loop counter [i++] of [rayMarch], which stays below [maxSteps] and so
    never wraps.

    One question cannot be put to exact arithmetic: whether the two samples
    [gradient] subtracts cancel, which depends on how [point + h] and
    [point - h] round.  For it [Vec3], [Sphere::evaluate] and [gradient] are
    read a second time over the binary64 numbers of the kernel, in module
    [Double]. *)

From Stdlib Require Import Floats Reals Lra Psatz ZArith Lia List String.
Import ListNotations.

Open Scope R_scope.

(** ** The C++ standard library functions the surfaces use *)

Module Std.

(** [std::min(a, b)] is [(b < a) ? b : a]. *)
Definition min (a b : R) : R := if Rlt_dec b a then b else a.

(** [std::max(a, b)] is [(a < b) ? b : a]. *)
Definition max (a b : R) : R := if Rlt_dec a b then b else a.

(** [std::abs] and [std::sqrt] on [double]. *)
Definition abs (a : R) : R := Rabs a.
Definition sqrt (a : R) : R := R_sqrt.sqrt a.

End Std.

(** ** class Vec3 *)

Module Vec3.

Record t : Type := mk { x : R; y : R; z : R }.

(** [Vec3()] *)
Definition zero : t := mk 0 0 0.

Definition length (v : t) : R :=
  Std.sqrt (x v * x v + y v * y v + z v * z v).

Definition normalize (v : t) : t :=
  let len := length v in
  if Req_dec_T len 0 then v
  else mk (x v / len) (y v / len) (z v / len).

(** [operator+], [operator-], [operator*(double)] and [dot] *)
Definition add (a b : t) : t := mk (x a + x b) (y a + y b) (z a + z b).
Definition sub (a b : t) : t := mk (x a - x b) (y a - y b) (z a - z b).
Definition scale (a : t) (scalar : R) : t :=
  mk (x a * scalar) (y a * scalar) (z a * scalar).
Definition dot (a b : t) : R := x a * x b + y a * y b + z a * z b.

End Vec3.

(** ** The surface classes *)

(** One constructor per concrete subclass of [ImplicitSurface]; the two
    [shared_ptr] children of a [BooleanOperation] are the two subtrees. *)
Inductive ImplicitSurface : Type :=
| Sphere (center : Vec3.t) (radius : R)
| Box (center dimensions : Vec3.t) (smoothing : R)
| Plane (normal : Vec3.t) (distance : R)
| Cylinder (start end_ : Vec3.t) (radius : R)
| UnionOp (left right : ImplicitSurface)
| IntersectionOp (left right : ImplicitSurface)
| DifferenceOp (left right : ImplicitSurface)
| SmoothUnionOp (left right : ImplicitSurface) (k : R)
| SmoothIntersectionOp (left right : ImplicitSurface) (k : R)
| SmoothDifferenceOp (left right : ImplicitSurface) (k : R).

(** The constructor of [Plane] stores the normalized normal. *)
Definition new_Plane (normal : Vec3.t) (distance : R) : ImplicitSurface :=
  Plane (Vec3.normalize normal) distance.

(** [Box]'s and the smooth operations' default arguments. *)
Definition default_smoothing : R := 0.1.
Definition default_smoothFactor : R := 0.1.

(** *** The bodies of the [evaluate] overrides *)

Definition Sphere_evaluate (center : Vec3.t) (radius : R) (point : Vec3.t) : R :=
  let diff := Vec3.sub point center in
  Vec3.length diff - radius.

Definition Box_evaluate (center dimensions : Vec3.t) (smoothing : R)
    (point : Vec3.t) : R :=
  let d := Vec3.mk
    (Std.abs (Vec3.x point - Vec3.x center) - Vec3.x dimensions)
    (Std.abs (Vec3.y point - Vec3.y center) - Vec3.y dimensions)
    (Std.abs (Vec3.z point - Vec3.z center) - Vec3.z dimensions) in
  let dMax := Vec3.mk (Std.max (Vec3.x d) 0) (Std.max (Vec3.y d) 0)
                      (Std.max (Vec3.z d) 0) in
  Vec3.length dMax
  + Std.min (Std.max (Vec3.x d) (Std.max (Vec3.y d) (Vec3.z d))) 0
  - smoothing.

Definition Plane_evaluate (normal : Vec3.t) (distance : R) (point : Vec3.t) : R :=
  Vec3.dot normal point + distance.

(** The locals of [Cylinder::evaluate], one definition per assignment. *)
Definition Cylinder_axis (start end_ : Vec3.t) : Vec3.t :=
  Vec3.normalize (Vec3.sub end_ start).

Definition Cylinder_dot (start end_ point : Vec3.t) : R :=
  let length := Vec3.length (Vec3.sub end_ start) in
  let axis := Cylinder_axis start end_ in
  let relativePos := Vec3.sub point start in
  let dot := Vec3.dot relativePos axis in
  Std.max 0 (Std.min length dot).

Definition Cylinder_closestPoint (start end_ point : Vec3.t) : Vec3.t :=
  Vec3.add start
    (Vec3.scale (Cylinder_axis start end_) (Cylinder_dot start end_ point)).

Definition Cylinder_evaluate (start end_ : Vec3.t) (radius : R)
    (point : Vec3.t) : R :=
  let closestPoint := Cylinder_closestPoint start end_ point in
  Vec3.length (Vec3.sub point closestPoint) - radius.

(** The hard boolean operations, on the two child values. *)
Definition UnionOp_combine (leftVal rightVal : R) : R :=
  Std.min leftVal rightVal.

Definition IntersectionOp_combine (leftVal rightVal : R) : R :=
  Std.max leftVal rightVal.

Definition DifferenceOp_combine (leftVal rightVal : R) : R :=
  Std.max leftVal (- rightVal).

(** The smooth boolean operations.  [SmoothDifferenceOp::evaluate] negates the
    right child's value when it reads it, which is done in [evaluate] below. *)
Definition SmoothUnionOp_combine (k leftVal rightVal : R) : R :=
  let h := Std.max (k - Std.abs (leftVal - rightVal)) 0 / k in
  Std.min leftVal rightVal - h * h * h * k * (1 / 6).

Definition SmoothIntersectionOp_combine (k leftVal rightVal : R) : R :=
  let h := Std.max (k - Std.abs (leftVal - rightVal)) 0 / k in
  Std.max leftVal rightVal + h * h * h * k * (1 / 6).

Definition SmoothDifferenceOp_combine (k leftVal rightVal : R) : R :=
  let h := Std.max (k - Std.abs (leftVal - rightVal)) 0 / k in
  Std.max leftVal rightVal + h * h * h * k * (1 / 6).

(** *** Virtual dispatch of [evaluate] *)

Fixpoint evaluate (s : ImplicitSurface) (point : Vec3.t) : R :=
  match s with
  | Sphere center radius => Sphere_evaluate center radius point
  | Box center dimensions smoothing =>
      Box_evaluate center dimensions smoothing point
  | Plane normal distance => Plane_evaluate normal distance point
  | Cylinder start end_ radius => Cylinder_evaluate start end_ radius point
  | UnionOp l r =>
      let leftVal := evaluate l point in
      let rightVal := evaluate r point in
      UnionOp_combine leftVal rightVal
  | IntersectionOp l r =>
      let leftVal := evaluate l point in
      let rightVal := evaluate r point in
      IntersectionOp_combine leftVal rightVal
  | DifferenceOp l r =>
      let leftVal := evaluate l point in
      let rightVal := evaluate r point in
      DifferenceOp_combine leftVal rightVal
  | SmoothUnionOp l r k =>
      let leftVal := evaluate l point in
      let rightVal := evaluate r point in
      SmoothUnionOp_combine k leftVal rightVal
  | SmoothIntersectionOp l r k =>
      let leftVal := evaluate l point in
      let rightVal := evaluate r point in
      SmoothIntersectionOp_combine k leftVal rightVal
  | SmoothDifferenceOp l r k =>
      let leftVal := evaluate l point in
      let rightVal := - evaluate r point in
      SmoothDifferenceOp_combine k leftVal rightVal
  end.

(** *** [ImplicitSurface::gradient]

    The default implementation only calls [evaluate], so it is stated over the
    evaluation function; no subclass overrides it. *)
Definition gradient_h : R := 0.0001.

Definition gradient_of (evaluate : Vec3.t -> R) (point : Vec3.t) : Vec3.t :=
  let h := gradient_h in
  let dx := evaluate (Vec3.mk (Vec3.x point + h) (Vec3.y point) (Vec3.z point))
          - evaluate (Vec3.mk (Vec3.x point - h) (Vec3.y point) (Vec3.z point)) in
  let dy := evaluate (Vec3.mk (Vec3.x point) (Vec3.y point + h) (Vec3.z point))
          - evaluate (Vec3.mk (Vec3.x point) (Vec3.y point - h) (Vec3.z point)) in
  let dz := evaluate (Vec3.mk (Vec3.x point) (Vec3.y point) (Vec3.z point + h))
          - evaluate (Vec3.mk (Vec3.x point) (Vec3.y point) (Vec3.z point - h)) in
  Vec3.normalize (Vec3.mk dx dy dz).

Definition gradient (s : ImplicitSurface) (point : Vec3.t) : Vec3.t :=
  gradient_of (evaluate s) point.

(** ** [Vec3], [Sphere::evaluate] and [gradient] in binary64

    The same source lines with [double] read as IEEE 754 binary64, every
    operation rounded to nearest (ties to even), the three-term sum of
    [length] added from left to right, and [len == 0] the IEEE comparison
    (true for both zeros, false for NaN).  [0.0001] is the double nearest to
    the decimal literal, as the compiler takes it. *)

Module Double.

Record t : Type := mk { x : float; y : float; z : float }.

Definition length (v : t) : float :=
  PrimFloat.sqrt (x v * x v + y v * y v + z v * z v)%float.

Definition normalize (v : t) : t :=
  let len := length v in
  if PrimFloat.eqb len 0%float then v
  else mk (x v / len)%float (y v / len)%float (z v / len)%float.

(** [operator-] *)
Definition sub (a b : t) : t :=
  mk (x a - x b)%float (y a - y b)%float (z a - z b)%float.

(** [Sphere::evaluate] *)
Definition Sphere_evaluate (center : t) (radius : float) (point : t) : float :=
  let diff := sub point center in
  (length diff - radius)%float.

(** [ImplicitSurface::gradient] *)
#[warnings="-inexact-float"] Definition gradient_h : float := 0.0001%float.

Definition gradient_of (evaluate : t -> float) (point : t) : t :=
  let h := gradient_h in
  let dx := (evaluate (mk (x point + h) (y point) (z point))
             - evaluate (mk (x point - h) (y point) (z point)))%float in
  let dy := (evaluate (mk (x point) (y point + h) (z point))
             - evaluate (mk (x point) (y point - h) (z point)))%float in
  let dz := (evaluate (mk (x point) (y point) (z point + h))
             - evaluate (mk (x point) (y point) (z point - h)))%float in
  normalize (mk dx dy dz).

End Double.

(** ** Division with the zero divisor made visible

    In the model above [a / 0] is an (unspecified) real number.  To state that
    a function never divides by zero, the functions that divide are given a
    second, instrumented reading in which a division by zero yields [None]. *)

Module Checked.

Definition div (a b : R) : option R :=
  if Req_dec_T b 0 then None else Some (a / b).

Definition bind {A B : Type} (m : option A) (f : A -> option B) : option B :=
  match m with
  | Some a => f a
  | None => None
  end.

Notation "'do' a <- m ; k" := (bind m (fun a => k))
  (at level 10, a name, m at level 100, k at level 200).

(** [Vec3::normalize] *)
Definition normalize (v : Vec3.t) : option Vec3.t :=
  let len := Vec3.length v in
  if Req_dec_T len 0 then Some v
  else
    do nx <- div (Vec3.x v) len ;
    do ny <- div (Vec3.y v) len ;
    do nz <- div (Vec3.z v) len ;
    Some (Vec3.mk nx ny nz).

(** [Cylinder::evaluate] *)
Definition Cylinder_evaluate (start end_ : Vec3.t) (radius : R)
    (point : Vec3.t) : option R :=
  let axis0 := Vec3.sub end_ start in
  let length := Vec3.length axis0 in
  do axis <- normalize axis0 ;
  let relativePos := Vec3.sub point start in
  let dot0 := Vec3.dot relativePos axis in
  let dot := Std.max 0 (Std.min length dot0) in
  let closestPoint := Vec3.add start (Vec3.scale axis dot) in
  Some (Vec3.length (Vec3.sub point closestPoint) - radius).

End Checked.

(** ** The GLSL side: the helpers of the generated shader and [rayMarch] *)

Module Shader.

(** GLSL built-ins [min], [max], [clamp] and [mix] on [float]. *)
Definition min (a b : R) : R := if Rlt_dec b a then b else a.
Definition max (a b : R) : R := if Rlt_dec a b then b else a.
Definition clamp (v minVal maxVal : R) : R := min (max v minVal) maxVal.
Definition mix (a b t : R) : R := a * (1 - t) + b * t.

(** [float * vec3] and [vec3 + vec3]. *)
Definition smul (s : R) (v : Vec3.t) : Vec3.t :=
  Vec3.mk (s * Vec3.x v) (s * Vec3.y v) (s * Vec3.z v).
Definition vadd (a b : Vec3.t) : Vec3.t :=
  Vec3.mk (Vec3.x a + Vec3.x b) (Vec3.y a + Vec3.y b) (Vec3.z a + Vec3.z b).

Definition unionOp (d1 d2 : R) : R := min d1 d2.
Definition intersectionOp (d1 d2 : R) : R := max d1 d2.
Definition differenceOp (d1 d2 : R) : R := max d1 (- d2).

Definition smoothUnionOp (d1 d2 k : R) : R :=
  let h := clamp (0.5 + 0.5 * (d2 - d1) / k) 0 1 in
  mix d2 d1 h - k * h * (1 - h).

Definition smoothIntersectionOp (d1 d2 k : R) : R :=
  let h := clamp (0.5 - 0.5 * (d2 - d1) / k) 0 1 in
  mix d2 d1 h + k * h * (1 - h).

Definition smoothDifferenceOp (d1 d2 k : R) : R :=
  let h := clamp (0.5 - 0.5 * (d2 + d1) / k) 0 1 in
  mix d1 (- d2) h + k * h * (1 - h).

(** What a call of [rayMarch] leaves behind: the returned [float], the [out]
    parameter [steps], the value of the local [depth] when the function
    returns, and the points at which [sceneSDF] was called, in call order. *)
Record March : Type := mkMarch {
  ret : R;
  steps : Z;
  depth : R;
  calls : list Vec3.t
}.

Section RayMarch.

(** [sceneSDF] is declared in [fragment.frag] and defined by the scene code
    appended at run time; [maxSteps], [maxDistance] and [epsilon] are
    uniforms. *)
Variable sceneSDF : Vec3.t -> R.
Variable maxSteps : Z.
Variable maxDistance : R.
Variable epsilon : R.

(** The [for] loop, entered at its test [i < maxSteps].  [fuel] bounds the
    iterations still allowed; [None] means the bound was too small. *)
Fixpoint rayMarch_loop (fuel : nat) (ro rd : Vec3.t)
    (i : Z) (depth : R) (steps : Z) (calls : list Vec3.t) : option March :=
  if (i <? maxSteps)%Z then
    match fuel with
    | O => None
    | S fuel' =>
        let p := vadd ro (smul depth rd) in
        let dist := sceneSDF p in
        let calls := calls ++ [p] in
        if Rlt_dec dist epsilon then
          Some (mkMarch depth i depth calls)
        else
          let depth := depth + dist in
          if Rge_dec depth maxDistance then
            Some (mkMarch maxDistance maxSteps depth calls)
          else
            rayMarch_loop fuel' ro rd (i + 1)%Z depth i calls
    end
  else Some (mkMarch maxDistance steps depth calls).

(** [float rayMarch(vec3 ro, vec3 rd, out int steps)]: [depth = 0.0],
    [steps = 0], [i = 0]; at most [maxSteps] iterations are needed. *)
Definition rayMarch (ro rd : Vec3.t) : option March :=
  rayMarch_loop (Z.to_nat maxSteps) ro rd 0%Z 0 0%Z [].

(** The depth the ray has reached after [n] iterations that did not leave
    the loop, and the scene distance sampled by iteration [n]. *)
Fixpoint depth_at (ro rd : Vec3.t) (n : nat) : R :=
  match n with
  | O => 0
  | S m =>
      depth_at ro rd m
      + sceneSDF (vadd ro (smul (depth_at ro rd m) rd))
  end.

Definition dist_at (ro rd : Vec3.t) (n : nat) : R :=
  sceneSDF (vadd ro (smul (depth_at ro rd n) rd)).

(** Iteration [n] takes neither exit. *)
Definition continues (ro rd : Vec3.t) (n : nat) : Prop :=
  ~ dist_at ro rd n < epsilon /\ ~ depth_at ro rd (S n) >= maxDistance.

(** The sample points of iterations [0 .. n-1]. *)
Fixpoint samples (ro rd : Vec3.t) (n : nat) : list Vec3.t :=
  match n with
  | O => []
  | S m =>
      samples ro rd m ++ [vadd ro (smul (depth_at ro rd m) rd)]
  end.

End RayMarch.

(** The value of [steps] once [m] further iterations have run to the end of
    the loop body, starting with [steps = st] before iteration [n]. *)
Definition steps_after (st : Z) (n m : nat) : Z :=
  match m with
  | O => st
  | S _ => (Z.of_nat (n + m) - 1)%Z
  end.

(** [main] takes the hit branch when [dist < maxDistance] and paints the
    background otherwise. *)
Definition is_miss (maxDistance : R) (m : March) : Prop :=
  ~ ret m < maxDistance.

(** *** The distance functions of [common_sdf.glsl]

    The same text is the [commonCode] string of
    [ImplicitRenderer::generateSceneSDFCode]. *)

(** GLSL built-ins on [vec3]: [a - b], [abs(v)], [max(v, float)], [dot],
    [length] and [normalize], which divides by the length without a test. *)
Definition vsub (a b : Vec3.t) : Vec3.t :=
  Vec3.mk (Vec3.x a - Vec3.x b) (Vec3.y a - Vec3.y b) (Vec3.z a - Vec3.z b).
Definition vabs (v : Vec3.t) : Vec3.t :=
  Vec3.mk (Rabs (Vec3.x v)) (Rabs (Vec3.y v)) (Rabs (Vec3.z v)).
Definition vmax (v : Vec3.t) (s : R) : Vec3.t :=
  Vec3.mk (max (Vec3.x v) s) (max (Vec3.y v) s) (max (Vec3.z v) s).
Definition dot (a b : Vec3.t) : R :=
  Vec3.x a * Vec3.x b + Vec3.y a * Vec3.y b + Vec3.z a * Vec3.z b.
Definition length (v : Vec3.t) : R :=
  sqrt (Vec3.x v * Vec3.x v + Vec3.y v * Vec3.y v + Vec3.z v * Vec3.z v).
Definition normalize (v : Vec3.t) : Vec3.t :=
  Vec3.mk (Vec3.x v / length v) (Vec3.y v / length v) (Vec3.z v / length v).

Definition sphereSDF (p center : Vec3.t) (radius : R) : R :=
  length (vsub p center) - radius.

Definition boxSDF (p center dimensions : Vec3.t) : R :=
  let d := vsub (vabs (vsub p center)) dimensions in
  length (vmax d 0)
  + min (max (Vec3.x d) (max (Vec3.y d) (Vec3.z d))) 0.

Definition cylinderSDF (p start end_ : Vec3.t) (radius : R) : R :=
  let ba := vsub end_ start in
  let pa := vsub p start in
  let h := clamp (dot pa ba / dot ba ba) 0 1 in
  length (vsub pa (smul h ba)) - radius.

(** [sceneNormal] *)
Definition sceneNormal (sceneSDF : Vec3.t -> R) (p : Vec3.t) : Vec3.t :=
  let h := 0.0001 in
  let dx := sceneSDF (vadd p (Vec3.mk h 0 0)) - sceneSDF (vsub p (Vec3.mk h 0 0)) in
  let dy := sceneSDF (vadd p (Vec3.mk 0 h 0)) - sceneSDF (vsub p (Vec3.mk 0 h 0)) in
  let dz := sceneSDF (vadd p (Vec3.mk 0 0 h)) - sceneSDF (vsub p (Vec3.mk 0 0 h)) in
  normalize (Vec3.mk dx dy dz).

(** *** The scene functions: the bodies of [sceneSDF] in the [scene_*.frag]
    files, which are also the strings [generateSceneSDFCode] emits. *)

Definition scene_empty (p : Vec3.t) : R := 1000.

Definition scene_sphere (p : Vec3.t) : R :=
  sphereSDF p (Vec3.mk 0 0 0) 1.

Definition scene_union (p : Vec3.t) : R :=
  let sphere1 := sphereSDF p (Vec3.mk (-0.5) 0 0) 1 in
  let sphere2 := sphereSDF p (Vec3.mk 0.5 0 0) 1 in
  unionOp sphere1 sphere2.

Definition scene_intersection (p : Vec3.t) : R :=
  let sphere := sphereSDF p (Vec3.mk 0 0 0) 1 in
  let box := boxSDF p (Vec3.mk 0 0 0) (Vec3.mk 0.8 0.8 0.8) in
  intersectionOp sphere box.

Definition scene_difference (p : Vec3.t) : R :=
  let sphere := sphereSDF p (Vec3.mk 0 0 0) 1 in
  let box := boxSDF p (Vec3.mk 0.5 0 0) (Vec3.mk 0.8 0.8 0.8) in
  differenceOp sphere box.

Definition scene_complex (p : Vec3.t) : R :=
  let sphere1 := sphereSDF p (Vec3.mk (-1) 0 0) 1.2 in
  let sphere2 := sphereSDF p (Vec3.mk 1 0 0) 1.2 in
  let box := boxSDF p (Vec3.mk 0 0 0) (Vec3.mk 0.8 0.8 0.8) in
  let spheres := unionOp sphere1 sphere2 in
  differenceOp spheres box.

Definition scene_custom (p : Vec3.t) : R :=
  let sphere1 := sphereSDF p (Vec3.mk (-0.8) 0.3 0) 1 in
  let sphere2 := sphereSDF p (Vec3.mk 0.8 (-0.2) 0) 0.8 in
  let box := boxSDF p (Vec3.mk 0 0 0) (Vec3.mk 0.6 0.6 2) in
  let cylinder :=
    cylinderSDF p (Vec3.mk 0 0 (-1.5)) (Vec3.mk 0 0 1.5) 0.4 in
  let unionSpheres := smoothUnionOp sphere1 sphere2 0.2 in
  let diffWithBox := smoothDifferenceOp unionSpheres box 0.1 in
  smoothIntersectionOp diffWithBox cylinder 0.1.

(** *** The colour computations of [main] *)

(** [float depthFactor = 1.0 - float(steps) / float(maxSteps)] and the factor
    [mix(0.5, 1.0, depthFactor)] the lit colour is multiplied by. *)
Definition depthFactor (steps maxSteps : Z) : R :=
  1 - IZR steps / IZR maxSteps.

Definition depthScale (steps maxSteps : Z) : R :=
  mix 0.5 1 (depthFactor steps maxSteps).

(** [mix(vec3, vec3, float)] and the background of a miss. *)
Definition vmix (a b : Vec3.t) (t : R) : Vec3.t :=
  Vec3.mk (mix (Vec3.x a) (Vec3.x b) t) (mix (Vec3.y a) (Vec3.y b) t)
          (mix (Vec3.z a) (Vec3.z b) t).

Definition backgroundColor (uv_y : R) : Vec3.t :=
  vmix (Vec3.mk 0.1 0.1 0.2) (Vec3.mk 0.2 0.3 0.4) uv_y.

(** *** [getRayDir], [calculateLighting] and [main] of [fragment.frag] *)

(** More GLSL built-ins: [-v], [vec3 * float], [cross], [reflect],
    [radians], and [pow(x, 32.0)], which for the non-negative [x] it is
    applied to is the 32nd power. *)
Definition vneg (v : Vec3.t) : Vec3.t :=
  Vec3.mk (- Vec3.x v) (- Vec3.y v) (- Vec3.z v).
Definition vscale (v : Vec3.t) (s : R) : Vec3.t :=
  Vec3.mk (Vec3.x v * s) (Vec3.y v * s) (Vec3.z v * s).
Definition cross (a b : Vec3.t) : Vec3.t :=
  Vec3.mk (Vec3.y a * Vec3.z b - Vec3.y b * Vec3.z a)
          (Vec3.z a * Vec3.x b - Vec3.z b * Vec3.x a)
          (Vec3.x a * Vec3.y b - Vec3.x b * Vec3.y a).
Definition reflect (I N : Vec3.t) : Vec3.t :=
  vsub I (smul (2 * dot N I) N).
Definition radians (degrees : R) : R := PI / 180 * degrees.
Definition pow32 (x : R) : R := x ^ 32.

Section Fragment.

(** The uniforms. *)
Variable sceneSDF : Vec3.t -> R.
Variables cameraPosition cameraTarget cameraUp : Vec3.t.
Variable fieldOfView : R.
Variables resolution_x resolution_y : R.
Variables lightPosition lightColor : Vec3.t.
Variable ambientStrength : R.
Variable maxSteps : Z.
Variable maxDistance : R.
Variable epsilon : R.

Definition getRayDir (uv_x uv_y : R) (camPos camTarget camUp : Vec3.t)
    (fov : R) : Vec3.t :=
  let forward := normalize (vsub camTarget camPos) in
  let right := normalize (cross forward camUp) in
  let up := cross right forward in
  let aspect := resolution_x / resolution_y in
  let tanFov := tan (radians fov / 2) in
  let rayDir :=
    normalize
      (vadd (vadd forward (smul ((2 * uv_x - 1) * tanFov * aspect) right))
            (smul ((2 * uv_y - 1) * tanFov) up)) in
  rayDir.

(** The parts of [calculateLighting] before and after the shadow march. *)
Definition lightDir (p : Vec3.t) : Vec3.t := normalize (vsub lightPosition p).

Definition ambient : Vec3.t := smul ambientStrength lightColor.

Definition diffuse (p n : Vec3.t) : Vec3.t :=
  let diff := max (dot n (lightDir p)) 0 in
  smul diff lightColor.

Definition specular (p n viewDir : Vec3.t) : Vec3.t :=
  let reflectDir := reflect (vneg (lightDir p)) n in
  let spec := pow32 (max (dot viewDir reflectDir) 0) in
  smul (0.5 * spec) lightColor.

Definition shadowPos (p n : Vec3.t) : Vec3.t :=
  let shadowDist := 0.1 in
  vadd p (vscale n shadowDist).

Definition shadowFactor (p n : Vec3.t) (shadowDist2 : R) : R :=
  if Rlt_dec shadowDist2 (length (vsub lightPosition (shadowPos p n)))
  then 0.5 else 1.

Definition calculateLighting (p n viewDir : Vec3.t) : option Vec3.t :=
  let shadowDir := normalize (vsub lightPosition (shadowPos p n)) in
  match rayMarch sceneSDF maxSteps maxDistance epsilon (shadowPos p n)
          shadowDir with
  | None => None
  | Some shadowMarch =>
      let shadow := shadowFactor p n (ret shadowMarch) in
      Some (vadd ambient
                 (vscale (vadd (diffuse p n) (specular p n viewDir)) shadow))
  end.

(** [main]: the colour written to [fragColor], as its [rgb] part and its
    alpha. *)
Definition main (uv_x uv_y : R) : option (Vec3.t * R) :=
  let ro := cameraPosition in
  let rd := getRayDir uv_x uv_y cameraPosition cameraTarget cameraUp
                      fieldOfView in
  match rayMarch sceneSDF maxSteps maxDistance epsilon ro rd with
  | None => None
  | Some march =>
      let dist := ret march in
      if Rlt_dec dist maxDistance then
        let p := vadd ro (vscale rd dist) in
        let n := sceneNormal sceneSDF p in
        match calculateLighting p n (vneg rd) with
        | None => None
        | Some color =>
            let color :=
              vscale color (depthScale (steps march) maxSteps) in
            Some (color, 1)
        end
      else Some (backgroundColor uv_y, 1)
  end.

End Fragment.

End Shader.

(** ** class ImplicitRenderer: the configuration it holds *)

(** A C++ call either returns or throws an exception carrying a message. *)
Inductive outcome (A : Type) : Type :=
| Returned (a : A)
| Thrown (what : string).
Arguments Returned {A} a.
Arguments Thrown {A} what.

Module Renderer.

(** The data members that configure the marcher and the lighting; the
    window and the OpenGL handles are left out. *)
Record t : Type := mk {
  width : Z;
  height : Z;
  scene : option ImplicitSurface;
  cameraPosition : Vec3.t;
  cameraTarget : Vec3.t;
  cameraUp : Vec3.t;
  fieldOfView : R;
  lightPosition : Vec3.t;
  lightColor : Vec3.t;
  ambientStrength : R;
  maxSteps : Z;
  maxDistance : R;
  epsilon : R
}.

(** [ImplicitRenderer::ImplicitRenderer(int width, int height)] *)
Definition new (width height : Z) : t :=
  mk width height None
     (Vec3.mk 0 0 5) (Vec3.mk 0 0 0) (Vec3.mk 0 1 0) 45
     (Vec3.mk 3 5 5) (Vec3.mk 1 1 1) 0.1
     100 100 0.001.

(** [void ImplicitRenderer::setRaymarchingParams(int, float, float)]: three
    assignments, no test, no [throw]. *)
Definition setRaymarchingParams (r : t) (steps : Z) (distance eps : R)
    : outcome t :=
  Returned
    (mk (width r) (height r) (scene r)
        (cameraPosition r) (cameraTarget r) (cameraUp r) (fieldOfView r)
        (lightPosition r) (lightColor r) (ambientStrength r)
        steps distance eps).

(** [setScene], [setCamera] and [setLight]: assignments; the shader rebuild
    and the redraw [setScene] triggers are outside the model. *)
Definition setScene (r : t) (newScene : ImplicitSurface) : t :=
  mk (width r) (height r) (Some newScene)
     (cameraPosition r) (cameraTarget r) (cameraUp r) (fieldOfView r)
     (lightPosition r) (lightColor r) (ambientStrength r)
     (maxSteps r) (maxDistance r) (epsilon r).

Definition setCamera (r : t) (position target up : Vec3.t) (fov : R) : t :=
  mk (width r) (height r) (scene r)
     position target up fov
     (lightPosition r) (lightColor r) (ambientStrength r)
     (maxSteps r) (maxDistance r) (epsilon r).

Definition setLight (r : t) (position color : Vec3.t) (ambient : R) : t :=
  mk (width r) (height r) (scene r)
     (cameraPosition r) (cameraTarget r) (cameraUp r) (fieldOfView r)
     position color ambient
     (maxSteps r) (maxDistance r) (epsilon r).

(** The predefined scenes.  [Box] is built with its default smoothing. *)
Definition createSphereScene : ImplicitSurface :=
  Sphere (Vec3.mk 0 0 0) 1.

Definition createCSGUnionScene : ImplicitSurface :=
  let sphere1 := Sphere (Vec3.mk (-0.5) 0 0) 1 in
  let sphere2 := Sphere (Vec3.mk 0.5 0 0) 1 in
  UnionOp sphere1 sphere2.

Definition createCSGIntersectionScene : ImplicitSurface :=
  let sphere := Sphere (Vec3.mk 0 0 0) 1 in
  let box := Box (Vec3.mk 0 0 0) (Vec3.mk 0.8 0.8 0.8) default_smoothing in
  IntersectionOp sphere box.

Definition createCSGDifferenceScene : ImplicitSurface :=
  let sphere := Sphere (Vec3.mk 0 0 0) 1 in
  let box := Box (Vec3.mk 0.5 0 0) (Vec3.mk 0.8 0.8 0.8) default_smoothing in
  DifferenceOp sphere box.

Definition createComplexCSGScene : ImplicitSurface :=
  let sphere1 := Sphere (Vec3.mk (-1) 0 0) 1.2 in
  let sphere2 := Sphere (Vec3.mk 1 0 0) 1.2 in
  let sphereUnion := UnionOp sphere1 sphere2 in
  let box := Box (Vec3.mk 0 0 0) (Vec3.mk 0.8 0.8 0.8) default_smoothing in
  DifferenceOp sphereUnion box.

(** [generateSceneSDFCode] picks the text of [sceneSDF] by the dynamic type of
    the scene's root (and, for a [DifferenceOp], of its two children).  The
    value here names the text picked; [sceneSDF_of] is the function that text
    defines. *)
Inductive SceneCode : Type :=
| EmptyScene
| SphereScene
| UnionScene
| IntersectionScene
| DifferenceScene
| ComplexScene
| CustomScene.

Definition generateSceneSDFCode (scene : option ImplicitSurface) : SceneCode :=
  match scene with
  | None => EmptyScene
  | Some (Sphere _ _) => SphereScene
  | Some (UnionOp _ _) => UnionScene
  | Some (IntersectionOp _ _) => IntersectionScene
  | Some (DifferenceOp l r) =>
      match l, r with
      | Sphere _ _, Box _ _ _ => DifferenceScene
      | _, _ => ComplexScene
      end
  | Some _ => CustomScene
  end.

Definition sceneSDF_of (c : SceneCode) : Vec3.t -> R :=
  match c with
  | EmptyScene => Shader.scene_empty
  | SphereScene => Shader.scene_sphere
  | UnionScene => Shader.scene_union
  | IntersectionScene => Shader.scene_intersection
  | DifferenceScene => Shader.scene_difference
  | ComplexScene => Shader.scene_complex
  | CustomScene => Shader.scene_custom
  end.

End Renderer.

(** The constructors of the smooth operations: the member initializer
    [k(smoothFactor)] and nothing else. *)
Definition new_SmoothUnionOp (left right : ImplicitSurface) (smoothFactor : R)
    : outcome ImplicitSurface :=
  Returned (SmoothUnionOp left right smoothFactor).

Definition new_SmoothIntersectionOp (left right : ImplicitSurface)
    (smoothFactor : R) : outcome ImplicitSurface :=
  Returned (SmoothIntersectionOp left right smoothFactor).

Definition new_SmoothDifferenceOp (left right : ImplicitSurface)
    (smoothFactor : R) : outcome ImplicitSurface :=
  Returned (SmoothDifferenceOp left right smoothFactor).

(** ** main.cpp: scene selection *)

(** [createCustomScene] *)
Definition createCustomScene : ImplicitSurface :=
  let sphere1 := Sphere (Vec3.mk (-0.8) 0.3 0) 1 in
  let sphere2 := Sphere (Vec3.mk 0.8 (-0.2) 0) 0.8 in
  let box := Box (Vec3.mk 0 0 0) (Vec3.mk 0.6 0.6 2) default_smoothing in
  let cylinder := Cylinder (Vec3.mk 0 0 (-1.5)) (Vec3.mk 0 0 1.5) 0.4 in
  let unionSpheres := SmoothUnionOp sphere1 sphere2 0.2 in
  let diffWithBox := SmoothDifferenceOp unionSpheres box 0.1 in
  SmoothIntersectionOp diffWithBox cylinder 0.1.

(** [switchScene]: the console messages are left out. *)
Definition switchScene (renderer : Renderer.t) (sceneIndex : Z) : Renderer.t :=
  match sceneIndex with
  | 0%Z => Renderer.setScene renderer Renderer.createSphereScene
  | 1%Z => Renderer.setScene renderer Renderer.createCSGUnionScene
  | 2%Z => Renderer.setScene renderer Renderer.createCSGIntersectionScene
  | 3%Z => Renderer.setScene renderer Renderer.createCSGDifferenceScene
  | 4%Z => Renderer.setScene renderer Renderer.createComplexCSGScene
  | _ => renderer
  end.

(** The GLFW keys and actions [keyCallback] distinguishes. *)
Inductive Key : Type :=
| GLFW_KEY_1 | GLFW_KEY_2 | GLFW_KEY_3 | GLFW_KEY_4 | GLFW_KEY_5
| GLFW_KEY_C | GLFW_KEY_ESCAPE
| GLFW_KEY_other.

Inductive Action : Type := GLFW_RELEASE | GLFW_PRESS | GLFW_REPEAT.

(** What [keyCallback] reads and writes: the global [g_renderer] (null before
    [main] sets it) and the window's close flag. *)
Record App : Type := mkApp {
  g_renderer : option Renderer.t;
  windowShouldClose : bool
}.

Definition keyCallback (app : App) (key : Key) (action : Action) : App :=
  match action, g_renderer app with
  | GLFW_PRESS, Some renderer =>
      let sceneIndex : Z :=
        (match key with
         | GLFW_KEY_1 => 0
         | GLFW_KEY_2 => 1
         | GLFW_KEY_3 => 2
         | GLFW_KEY_4 => 3
         | GLFW_KEY_5 => 4
         | _ => -1
         end)%Z in
      match key with
      | GLFW_KEY_C =>
          mkApp (Some (Renderer.setScene renderer createCustomScene))
                (windowShouldClose app)
      | GLFW_KEY_ESCAPE => mkApp (g_renderer app) true
      | _ =>
          if (sceneIndex >=? 0)%Z
          then mkApp (Some (switchScene renderer sceneIndex))
                     (windowShouldClose app)
          else app
      end
  | _, _ => app
  end.

(** ** Properties of fields and of rays (used to state the theorems) *)

(** [f] changes by at most the distance between its arguments. *)
Definition Lipschitz1 (f : Vec3.t -> R) : Prop :=
  forall p q : Vec3.t, Rabs (f p - f q) <= Vec3.length (Vec3.sub p q).

(** A tree whose inner nodes are hard boolean operations and whose leaves
    have fields that change by at most the distance between two points. *)
Fixpoint hard_csg (s : ImplicitSurface) : Prop :=
  match s with
  | UnionOp l r => hard_csg l /\ hard_csg r
  | IntersectionOp l r => hard_csg l /\ hard_csg r
  | DifferenceOp l r => hard_csg l /\ hard_csg r
  | SmoothUnionOp _ _ _ => False
  | SmoothIntersectionOp _ _ _ => False
  | SmoothDifferenceOp _ _ _ => False
  | leaf => Lipschitz1 (evaluate leaf)
  end.

(** The point of the ray at parameter [t]: [ro + t * rd]. *)
Definition ray_point (ro rd : Vec3.t) (t : R) : Vec3.t :=
  Shader.vadd ro (Shader.smul t rd).

(** The three ways a call of [rayMarch] can end, by the iteration [k] at
    which it ends: a hit in iteration [k]; [depth] reaching [maxDistance] in
    iteration [k]; the loop test failing before an iteration [k]. *)
Section MarchEnds.

Variable sceneSDF : Vec3.t -> R.
Variable maxSteps : Z.
Variable maxDistance : R.
Variable epsilon : R.
Variables ro rd : Vec3.t.

Definition march_hit (n k : nat) (m : Shader.March) : Prop :=
  (n <= k)%nat /\ (Z.of_nat k < maxSteps)%Z
  /\ (forall j, (n <= j < k)%nat ->
        Shader.continues sceneSDF maxDistance epsilon ro rd j)
  /\ Shader.dist_at sceneSDF ro rd k < epsilon
  /\ m = Shader.mkMarch (Shader.depth_at sceneSDF ro rd k) (Z.of_nat k)
                        (Shader.depth_at sceneSDF ro rd k)
                        (Shader.samples sceneSDF ro rd (S k)).

Definition march_far (n k : nat) (m : Shader.March) : Prop :=
  (n <= k)%nat /\ (Z.of_nat k < maxSteps)%Z
  /\ (forall j, (n <= j < k)%nat ->
        Shader.continues sceneSDF maxDistance epsilon ro rd j)
  /\ ~ Shader.dist_at sceneSDF ro rd k < epsilon
  /\ Shader.depth_at sceneSDF ro rd (S k) >= maxDistance
  /\ m = Shader.mkMarch maxDistance maxSteps
                        (Shader.depth_at sceneSDF ro rd (S k))
                        (Shader.samples sceneSDF ro rd (S k)).

Definition march_exhausted (st : Z) (n k : nat) (m : Shader.March) : Prop :=
  (n <= k)%nat /\ (maxSteps <= Z.of_nat k)%Z
  /\ (k = n \/ Z.of_nat k = maxSteps)
  /\ (forall j, (n <= j < k)%nat ->
        Shader.continues sceneSDF maxDistance epsilon ro rd j)
  /\ m = Shader.mkMarch maxDistance (Shader.steps_after st n (k - n))
                        (Shader.depth_at sceneSDF ro rd k)
                        (Shader.samples sceneSDF ro rd k).

End MarchEnds.

(** ** Helper facts on [Std.min], [Std.max] *)

Lemma std_min_Rmin (a b : R) : Std.min a b = Rmin a b.
Proof.
  unfold Std.min, Rmin.
  destruct (Rlt_dec b a), (Rle_dec a b); lra.
Qed.

Lemma std_max_Rmax (a b : R) : Std.max a b = Rmax a b.
Proof.
  unfold Std.max, Rmax.
  destruct (Rlt_dec a b), (Rle_dec a b); lra.
Qed.

(** C1.  The hard boolean operations evaluate to exactly the minimum, the
    maximum, and the maximum with the negated right value, of the two children's
    values at the same point. *)
Theorem hard_boolean_evaluate_exact :
  forall (left right : ImplicitSurface) (p : Vec3.t),
    evaluate (UnionOp left right) p = Rmin (evaluate left p) (evaluate right p)
    /\ evaluate (IntersectionOp left right) p
       = Rmax (evaluate left p) (evaluate right p)
    /\ evaluate (DifferenceOp left right) p
       = Rmax (evaluate left p) (- evaluate right p).
Proof.
  intros left right p; cbn [evaluate].
  unfold UnionOp_combine, IntersectionOp_combine, DifferenceOp_combine.
  rewrite std_min_Rmin, !std_max_Rmax.
  repeat split.
Qed.

(** Case analysis on the innermost comparison of the goal. *)
Ltac case_Rlt :=
  match goal with
  | |- context [Rlt_dec ?a ?b] =>
      lazymatch a with
      | context [Rlt_dec _ _] => fail
      | _ => lazymatch b with
             | context [Rlt_dec _ _] => fail
             | _ => destruct (Rlt_dec a b); cbv iota; try lra
             end
      end
  end.

(** ** The smooth boolean operations *)

(** The blend weight of the object model, as the specification writes it. *)
Lemma smooth_h_range (k a b : R) :
  0 < k -> 0 <= Rmax (k - Rabs (a - b)) 0 / k <= 1.
Proof.
  intros Hk.
  pose proof (Rabs_pos (a - b)) as Habs.
  pose proof (Rmax_r (k - Rabs (a - b)) 0) as Hlo.
  assert (Hhi : Rmax (k - Rabs (a - b)) 0 <= k)
    by (apply Rmax_lub; lra).
  split.
  - apply Rmult_le_pos; [lra | left; apply Rinv_0_lt_compat; exact Hk].
  - apply (Rmult_le_reg_r k); [exact Hk |].
    unfold Rdiv. rewrite Rmult_assoc, Rinv_l by lra. lra.
Qed.

(** The correction term [h*h*h*k*(1/6)] lies between [0] and [k/6]. *)
Lemma smooth_correction_range (k a b : R) :
  0 < k ->
  let h := Rmax (k - Rabs (a - b)) 0 / k in
  0 <= h * h * h * k * (1 / 6) <= k / 6.
Proof.
  intros Hk h.
  destruct (smooth_h_range k a b Hk) as [H0 H1]. fold h in H0, H1.
  assert (H2 : 0 <= h * h <= 1) by nra.
  assert (H3 : 0 <= h * h * h <= 1) by nra.
  split; nra.
Qed.

(** C3.  Each smooth operation evaluates to the cubic-polynomial blend of its
    children's values: union is [min - h^3 k/6], intersection and difference
    are [max + h^3 k/6], the difference taking the negated right value. *)
Theorem smooth_boolean_evaluate_formula :
  forall (left right : ImplicitSurface) (k : R) (p : Vec3.t),
    let dL := evaluate left p in
    let dR := evaluate right p in
    let h := Rmax (k - Rabs (dL - dR)) 0 / k in
    let dR' := - dR in
    let h' := Rmax (k - Rabs (dL - dR')) 0 / k in
    evaluate (SmoothUnionOp left right k) p = Rmin dL dR - h ^ 3 * k / 6
    /\ evaluate (SmoothIntersectionOp left right k) p
       = Rmax dL dR + h ^ 3 * k / 6
    /\ evaluate (SmoothDifferenceOp left right k) p
       = Rmax dL dR' + h' ^ 3 * k / 6.
Proof.
  intros left right k p dL dR h dR' h'. cbn [evaluate].
  unfold SmoothUnionOp_combine, SmoothIntersectionOp_combine,
    SmoothDifferenceOp_combine, Std.abs.
  rewrite std_min_Rmin, !std_max_Rmax.
  fold dL dR. fold dR'. fold h h'.
  repeat split; field.
Qed.

(** C4.  The shader's [smoothUnionOp] and the object model's [SmoothUnionOp]
    are different functions: at [d1 = d2 = 0], [k = 1] the first gives [-1/4]
    and the second [-1/6]. *)
Theorem shader_smooth_union_differs :
  exists d1 d2 k : R,
    0 < k
    /\ Shader.smoothUnionOp d1 d2 k = - (1 / 4)
    /\ SmoothUnionOp_combine k d1 d2 = - (1 / 6)
    /\ SmoothUnionOp_combine k d1 d2
       = Rmin d1 d2 - (Rmax (k - Rabs (d1 - d2)) 0 / k) ^ 3 * k / 6
    /\ Shader.smoothUnionOp d1 d2 k <> SmoothUnionOp_combine k d1 d2.
Proof.
  exists 0, 0, 1.
  assert (Hs : Shader.smoothUnionOp 0 0 1 = - (1 / 4)).
  { unfold Shader.smoothUnionOp, Shader.clamp, Shader.mix, Shader.min,
      Shader.max.
    repeat case_Rlt. }
  assert (Ho : SmoothUnionOp_combine 1 0 0 = - (1 / 6)).
  { unfold SmoothUnionOp_combine, Std.abs, Std.min, Std.max.
    replace (0 - 0) with 0 by ring. rewrite Rabs_R0.
    repeat case_Rlt. }
  repeat split.
  - lra.
  - exact Hs.
  - exact Ho.
  - unfold SmoothUnionOp_combine, Std.abs.
    rewrite std_min_Rmin, std_max_Rmax. field.
  - rewrite Hs, Ho. lra.
Qed.

(** C5.  For [k > 0] each smooth operation is within [k/6] of its hard
    counterpart, at every point and for every pair of children; hence the
    smooth operations converge to the hard ones, uniformly, as [k] tends to
    [0] from above. *)
Theorem smooth_converges_to_hard :
  (forall (left right : ImplicitSurface) (p : Vec3.t) (k : R),
      0 < k ->
      Rabs (evaluate (SmoothUnionOp left right k) p
            - evaluate (UnionOp left right) p) <= k / 6
      /\ Rabs (evaluate (SmoothIntersectionOp left right k) p
               - evaluate (IntersectionOp left right) p) <= k / 6
      /\ Rabs (evaluate (SmoothDifferenceOp left right k) p
               - evaluate (DifferenceOp left right) p) <= k / 6)
  /\ (forall tolerance : R,
      0 < tolerance ->
      exists delta : R,
        0 < delta
        /\ forall (left right : ImplicitSurface) (p : Vec3.t) (k : R),
            0 < k -> k < delta ->
            Rabs (evaluate (SmoothUnionOp left right k) p
                  - evaluate (UnionOp left right) p) < tolerance
            /\ Rabs (evaluate (SmoothIntersectionOp left right k) p
                     - evaluate (IntersectionOp left right) p) < tolerance
            /\ Rabs (evaluate (SmoothDifferenceOp left right k) p
                     - evaluate (DifferenceOp left right) p) < tolerance).
Proof.
  assert (Hbound :
    forall (left right : ImplicitSurface) (p : Vec3.t) (k : R),
      0 < k ->
      Rabs (evaluate (SmoothUnionOp left right k) p
            - evaluate (UnionOp left right) p) <= k / 6
      /\ Rabs (evaluate (SmoothIntersectionOp left right k) p
               - evaluate (IntersectionOp left right) p) <= k / 6
      /\ Rabs (evaluate (SmoothDifferenceOp left right k) p
               - evaluate (DifferenceOp left right) p) <= k / 6).
  { intros left right p k Hk. cbn [evaluate].
    unfold SmoothUnionOp_combine, SmoothIntersectionOp_combine,
      SmoothDifferenceOp_combine, UnionOp_combine, IntersectionOp_combine,
      DifferenceOp_combine, Std.abs.
    rewrite !std_max_Rmax.
    pose proof (smooth_correction_range k (evaluate left p)
                  (evaluate right p) Hk) as H1.
    pose proof (smooth_correction_range k (evaluate left p)
                  (- evaluate right p) Hk) as H2.
    cbv zeta in H1, H2.
    repeat split; apply Rabs_le; lra. }
  split; [exact Hbound |].
  intros tolerance Htol. exists (6 * tolerance). split; [lra |].
  intros left right p k Hk Hlt.
  destruct (Hbound left right p k Hk) as (Hu & Hi & Hd).
  repeat split; lra.
Qed.

Lemma smooth_converges_to_hard_witness :
  0 < 1
  /\ Rabs (evaluate (SmoothUnionOp (Plane (Vec3.mk 0 0 1) 0)
                                   (Plane (Vec3.mk 0 1 0) 0) 1) Vec3.zero
           - evaluate (UnionOp (Plane (Vec3.mk 0 0 1) 0)
                               (Plane (Vec3.mk 0 1 0) 0)) Vec3.zero) <= 1 / 6.
Proof.
  split; [lra |].
  apply (proj1 smooth_converges_to_hard
           (Plane (Vec3.mk 0 0 1) 0) (Plane (Vec3.mk 0 1 0) 0) Vec3.zero 1).
  lra.
Defined.

(** ** Vec3: length and normalize *)

Lemma sum_squares_nonneg (a b c : R) : 0 <= a * a + b * b + c * c.
Proof. nra. Qed.

Lemma length_square (v : Vec3.t) :
  Vec3.length v * Vec3.length v
  = Vec3.x v * Vec3.x v + Vec3.y v * Vec3.y v + Vec3.z v * Vec3.z v.
Proof.
  unfold Vec3.length, Std.sqrt. apply sqrt_sqrt, sum_squares_nonneg.
Qed.

Lemma length_zero : Vec3.length Vec3.zero = 0.
Proof.
  unfold Vec3.length, Std.sqrt, Vec3.zero; cbn.
  replace (0 * 0 + 0 * 0 + 0 * 0) with 0 by ring. apply sqrt_0.
Qed.

Lemma length_zero_iff (v : Vec3.t) : Vec3.length v = 0 <-> v = Vec3.zero.
Proof.
  split.
  - intros H. pose proof (length_square v) as Hsq. rewrite H in Hsq.
    destruct v as [a b c]; cbn in Hsq. unfold Vec3.zero.
    assert (a = 0) by nra. assert (b = 0) by nra. assert (c = 0) by nra.
    subst; reflexivity.
  - intros ->. apply length_zero.
Qed.

Lemma normalize_zero_length (v : Vec3.t) :
  Vec3.length v = 0 -> Vec3.normalize v = v.
Proof.
  intros H. unfold Vec3.normalize.
  destruct (Req_dec_T (Vec3.length v) 0) as [_ | Hne]; [reflexivity | ].
  contradiction.
Qed.

Lemma normalize_nonzero_length (v : Vec3.t) :
  Vec3.length v <> 0 ->
  Vec3.normalize v
  = Vec3.mk (Vec3.x v / Vec3.length v) (Vec3.y v / Vec3.length v)
            (Vec3.z v / Vec3.length v).
Proof.
  intros H. unfold Vec3.normalize.
  destruct (Req_dec_T (Vec3.length v) 0) as [He | _]; [contradiction | ].
  reflexivity.
Qed.

Lemma checked_normalize_total (v : Vec3.t) :
  Checked.normalize v = Some (Vec3.normalize v).
Proof.
  unfold Checked.normalize, Vec3.normalize, Checked.div.
  destruct (Req_dec_T (Vec3.length v) 0) as [He | Hne]; reflexivity.
Qed.

Lemma length_normalize (v : Vec3.t) :
  Vec3.length v <> 0 -> Vec3.length (Vec3.normalize v) = 1.
Proof.
  intros Hne. rewrite (normalize_nonzero_length v Hne).
  pose proof (length_square v) as Hsq.
  set (len := Vec3.length v) in *.
  unfold Vec3.length at 1, Std.sqrt; cbn [Vec3.x Vec3.y Vec3.z].
  replace (Vec3.x v / len * (Vec3.x v / len)
           + Vec3.y v / len * (Vec3.y v / len)
           + Vec3.z v / len * (Vec3.z v / len))
    with ((Vec3.x v * Vec3.x v + Vec3.y v * Vec3.y v + Vec3.z v * Vec3.z v)
          / (len * len))
    by (field; exact Hne).
  rewrite <- Hsq.
  replace (len * len / (len * len)) with 1 by (field; exact Hne).
  apply sqrt_1.
Qed.

Lemma normalize_unit_or_zero (v : Vec3.t) :
  Vec3.length (Vec3.normalize v) = 1 \/ Vec3.normalize v = Vec3.zero.
Proof.
  destruct (Req_dec_T (Vec3.length v) 0) as [He | Hne].
  - right. rewrite (normalize_zero_length v He).
    apply length_zero_iff, He.
  - left. apply length_normalize, Hne.
Qed.

Lemma sub_self (v : Vec3.t) : Vec3.sub v v = Vec3.zero.
Proof. unfold Vec3.sub, Vec3.zero. f_equal; ring. Qed.

Lemma normalize_zero : Vec3.normalize Vec3.zero = Vec3.zero.
Proof. apply normalize_zero_length, length_zero. Qed.

(** C8.  [normalize] returns a zero-length vector unchanged and divides every
    other vector by its length; on no input does it divide by zero. *)
Theorem normalize_guarded :
  forall v : Vec3.t,
    (Vec3.length v = 0 -> Vec3.normalize v = v)
    /\ (Vec3.length v <> 0 ->
        Vec3.normalize v
        = Vec3.mk (Vec3.x v / Vec3.length v) (Vec3.y v / Vec3.length v)
                  (Vec3.z v / Vec3.length v))
    /\ Checked.normalize v = Some (Vec3.normalize v).
Proof.
  intros v. split; [| split].
  - apply normalize_zero_length.
  - apply normalize_nonzero_length.
  - apply checked_normalize_total.
Qed.

Lemma normalize_guarded_witness :
  (Vec3.length Vec3.zero = 0 /\ Vec3.normalize Vec3.zero = Vec3.zero)
  /\ (Vec3.length (Vec3.mk 1 0 0) <> 0
      /\ Vec3.normalize (Vec3.mk 1 0 0)
         = Vec3.mk (1 / Vec3.length (Vec3.mk 1 0 0))
                   (0 / Vec3.length (Vec3.mk 1 0 0))
                   (0 / Vec3.length (Vec3.mk 1 0 0))).
Proof.
  assert (H1 : Vec3.length (Vec3.mk 1 0 0) <> 0).
  { unfold Vec3.length, Std.sqrt; cbn.
    replace (1 * 1 + 0 * 0 + 0 * 0) with 1 by ring. rewrite sqrt_1. lra. }
  split; split.
  - exact length_zero.
  - exact (proj1 (normalize_guarded Vec3.zero) length_zero).
  - exact H1.
  - exact (proj1 (proj2 (normalize_guarded (Vec3.mk 1 0 0))) H1).
Defined.

(** ** The degenerate cylinder *)

Lemma std_clamp_zero (d : R) : Std.max 0 (Std.min 0 d) = 0.
Proof. unfold Std.max, Std.min. repeat case_Rlt; reflexivity. Qed.

Lemma add_scale_zero (s a : Vec3.t) :
  Vec3.add s (Vec3.scale a 0) = s.
Proof.
  destruct s as [sx sy sz]. unfold Vec3.add, Vec3.scale; cbn.
  f_equal; ring.
Qed.

(** The instrumented evaluation agrees with [Cylinder_evaluate] and never
    meets a zero divisor, whatever the end points. *)
Lemma checked_cylinder_total (start end_ : Vec3.t) (radius : R) (p : Vec3.t) :
  Checked.Cylinder_evaluate start end_ radius p
  = Some (evaluate (Cylinder start end_ radius) p).
Proof.
  unfold Checked.Cylinder_evaluate. cbv zeta.
  rewrite checked_normalize_total. reflexivity.
Qed.

(** C9.  When [start] and [end] coincide, [Cylinder::evaluate] keeps the zero
    axis (the guarded branch of [normalize]), clamps the projection to [0],
    takes [start] as the closest point and returns [|p - start| - radius]; no
    division by zero happens on the way. *)
Theorem degenerate_cylinder_evaluate :
  forall (start : Vec3.t) (radius : R) (p : Vec3.t),
    Cylinder_axis start start = Vec3.zero
    /\ Cylinder_dot start start p = 0
    /\ Cylinder_closestPoint start start p = start
    /\ evaluate (Cylinder start start radius) p
       = Vec3.length (Vec3.sub p start) - radius
    /\ Checked.Cylinder_evaluate start start radius p
       = Some (Vec3.length (Vec3.sub p start) - radius).
Proof.
  intros start radius p.
  assert (Haxis : Cylinder_axis start start = Vec3.zero).
  { unfold Cylinder_axis. rewrite sub_self. apply normalize_zero. }
  assert (Hdot : Cylinder_dot start start p = 0).
  { unfold Cylinder_dot. cbv zeta. rewrite sub_self, length_zero.
    apply std_clamp_zero. }
  assert (Hcl : Cylinder_closestPoint start start p = start).
  { unfold Cylinder_closestPoint. rewrite Hdot. apply add_scale_zero. }
  repeat split; trivial.
  - cbn [evaluate]. unfold Cylinder_evaluate. cbv zeta. rewrite Hcl.
    reflexivity.
  - unfold Checked.Cylinder_evaluate. cbv zeta.
    rewrite checked_normalize_total, sub_self, normalize_zero, length_zero.
    cbn [Checked.bind]. rewrite std_clamp_zero, add_scale_zero. reflexivity.
Qed.

(** ** The numeric gradient *)

Lemma gradient_of_unit_or_zero (f : Vec3.t -> R) (p : Vec3.t) :
  Vec3.length (gradient_of f p) = 1 \/ gradient_of f p = Vec3.zero.
Proof. unfold gradient_of. apply normalize_unit_or_zero. Qed.

Lemma central_difference_cancels (r a b : R) :
  a = b -> Std.sqrt a - r - (Std.sqrt b - r) = 0.
Proof. intros ->. ring. Qed.

(** In binary64 the centre of a sphere is not in general a point where the
    differences vanish: for the unit sphere centred at (0,0,2) the samples at
    [2 + h] and [2 - h] lie at slightly different distances from the centre
    after rounding, the difference along z is a non-zero rounding residue,
    and [normalize] scales it up to a unit vector. *)
Lemma gradient_sphere_centre_counterexample :
  Double.gradient_of (Double.Sphere_evaluate (Double.mk 0 0 2) 1)
    (Double.mk 0 0 2)
  = Double.mk 0 0 1
  /\ Double.length
       (Double.gradient_of (Double.Sphere_evaluate (Double.mk 0 0 2) 1)
          (Double.mk 0 0 2))
     = 1%float
  /\ PrimFloat.eqb
       (Double.Sphere_evaluate (Double.mk 0 0 2) 1
          (Double.mk 0 0 (2 + Double.gradient_h))
        - Double.Sphere_evaluate (Double.mk 0 0 2) 1
            (Double.mk 0 0 (2 - Double.gradient_h)))%float
       0%float
     = false.
Proof. repeat split; vm_compute; reflexivity. Qed.

(** C10.  The default gradient is the guarded [normalize] of the vector of
    the three central differences.  Its value has length 1 or is the zero
    vector; it is the zero vector when the three differences vanish, and
    otherwise it is the difference vector divided by its length, of length 1.
    The differences vanish at the centre of a sphere centred at the origin,
    where [0 + h] and [0 - h] are exact mirror images.  In binary64 the same
    holds: vanishing differences give (0,0,0), as at the centre of the unit
    sphere at the origin; at the centre of the unit sphere at (1,2,3) the
    differences do not all vanish and the value is the unit vector
    (0,1,0). *)
Theorem gradient_normalized_differences :
  (forall (s : ImplicitSurface) (p : Vec3.t),
      Vec3.length (gradient s p) = 1 \/ gradient s p = Vec3.zero)
  /\ (forall (s : ImplicitSurface) (p : Vec3.t),
      let h := 0.0001 in
      let dx :=
        evaluate s (Vec3.mk (Vec3.x p + h) (Vec3.y p) (Vec3.z p))
        - evaluate s (Vec3.mk (Vec3.x p - h) (Vec3.y p) (Vec3.z p)) in
      let dy :=
        evaluate s (Vec3.mk (Vec3.x p) (Vec3.y p + h) (Vec3.z p))
        - evaluate s (Vec3.mk (Vec3.x p) (Vec3.y p - h) (Vec3.z p)) in
      let dz :=
        evaluate s (Vec3.mk (Vec3.x p) (Vec3.y p) (Vec3.z p + h))
        - evaluate s (Vec3.mk (Vec3.x p) (Vec3.y p) (Vec3.z p - h)) in
      let len := Vec3.length (Vec3.mk dx dy dz) in
      (dx = 0 /\ dy = 0 /\ dz = 0 -> gradient s p = Vec3.zero)
      /\ (~ (dx = 0 /\ dy = 0 /\ dz = 0) ->
          gradient s p = Vec3.mk (dx / len) (dy / len) (dz / len)
          /\ Vec3.length (gradient s p) = 1))
  /\ (forall radius : R,
      gradient (Sphere (Vec3.mk 0 0 0) radius) (Vec3.mk 0 0 0) = Vec3.zero)
  /\ (forall (f : Double.t -> float) (p : Double.t),
      let h := Double.gradient_h in
      (f (Double.mk (Double.x p + h) (Double.y p) (Double.z p))
       - f (Double.mk (Double.x p - h) (Double.y p) (Double.z p)))%float
      = 0%float ->
      (f (Double.mk (Double.x p) (Double.y p + h) (Double.z p))
       - f (Double.mk (Double.x p) (Double.y p - h) (Double.z p)))%float
      = 0%float ->
      (f (Double.mk (Double.x p) (Double.y p) (Double.z p + h))
       - f (Double.mk (Double.x p) (Double.y p) (Double.z p - h)))%float
      = 0%float ->
      Double.gradient_of f p = Double.mk 0 0 0)
  /\ Double.gradient_of (Double.Sphere_evaluate (Double.mk 0 0 0) 1)
       (Double.mk 0 0 0)
     = Double.mk 0 0 0
  /\ Double.gradient_of (Double.Sphere_evaluate (Double.mk 1 2 3) 1)
       (Double.mk 1 2 3)
     = Double.mk 0 1 0.
Proof.
  split; [| split; [| split; [| split; [| split]]]].
  - intros s p. apply gradient_of_unit_or_zero.
  - intros s p h dx dy dz len.
    change (gradient s p) with (Vec3.normalize (Vec3.mk dx dy dz)).
    split.
    + intros (Hx & Hy & Hz). rewrite Hx, Hy, Hz. apply normalize_zero.
    + intros Hn.
      assert (Hlen : len <> 0).
      { intros He. apply length_zero_iff in He.
        unfold Vec3.zero in He. injection He as Hx Hy Hz.
        apply Hn. repeat split; assumption. }
      split.
      * apply normalize_nonzero_length, Hlen.
      * apply length_normalize, Hlen.
  - intros radius. unfold gradient, gradient_of. cbv zeta.
    cbn [evaluate Vec3.x Vec3.y Vec3.z].
    unfold Sphere_evaluate, Vec3.length, Vec3.sub.
    cbn [Vec3.x Vec3.y Vec3.z].
    rewrite !central_difference_cancels by ring.
    apply normalize_zero.
  - intros f p h Hx Hy Hz. unfold Double.gradient_of. cbv zeta.
    fold h. rewrite Hx, Hy, Hz. vm_compute. reflexivity.
  - vm_compute. reflexivity.
  - vm_compute. reflexivity.
Qed.

(** ** The ray marcher *)

Section RayMarchFacts.

Variable sceneSDF : Vec3.t -> R.
Variable maxSteps : Z.
Variable maxDistance : R.
Variable epsilon : R.
Variables ro rd : Vec3.t.

Local Abbreviation loop :=
  (Shader.rayMarch_loop sceneSDF maxSteps maxDistance epsilon).
Local Abbreviation depth_at := (Shader.depth_at sceneSDF ro rd).
Local Abbreviation dist_at := (Shader.dist_at sceneSDF ro rd).
Local Abbreviation samples := (Shader.samples sceneSDF ro rd).
Local Abbreviation continues :=
  (Shader.continues sceneSDF maxDistance epsilon ro rd).

(** One pass through the loop body, for each of its three ways out. *)
Lemma loop_step_hit (fuel n : nat) (st : Z) :
  (Z.of_nat n < maxSteps)%Z ->
  dist_at n < epsilon ->
  loop (S fuel) ro rd (Z.of_nat n) (depth_at n) st (samples n)
  = Some (Shader.mkMarch (depth_at n) (Z.of_nat n) (depth_at n)
            (samples (S n))).
Proof.
  intros Hlt Hd. cbn [Shader.rayMarch_loop].
  apply Z.ltb_lt in Hlt. rewrite Hlt.
  unfold Shader.dist_at in Hd.
  destruct (Rlt_dec _ _) as [_ | Hn]; [reflexivity | contradiction].
Qed.

Lemma loop_step_miss (fuel n : nat) (st : Z) :
  (Z.of_nat n < maxSteps)%Z ->
  ~ dist_at n < epsilon ->
  depth_at (S n) >= maxDistance ->
  loop (S fuel) ro rd (Z.of_nat n) (depth_at n) st (samples n)
  = Some (Shader.mkMarch maxDistance maxSteps (depth_at (S n))
            (samples (S n))).
Proof.
  intros Hlt Hd Hm. cbn [Shader.rayMarch_loop].
  apply Z.ltb_lt in Hlt. rewrite Hlt.
  unfold Shader.dist_at in Hd. cbn [Shader.depth_at] in Hm.
  destruct (Rlt_dec _ _) as [Hn | _]; [contradiction |].
  destruct (Rge_dec _ _) as [_ | Hn]; [reflexivity | contradiction].
Qed.

Lemma loop_step_continue (fuel n : nat) (st : Z) :
  (Z.of_nat n < maxSteps)%Z ->
  continues n ->
  loop (S fuel) ro rd (Z.of_nat n) (depth_at n) st (samples n)
  = loop fuel ro rd (Z.of_nat (S n)) (depth_at (S n)) (Z.of_nat n)
      (samples (S n)).
Proof.
  intros Hlt [Hd Hm]. cbn [Shader.rayMarch_loop].
  apply Z.ltb_lt in Hlt. rewrite Hlt.
  unfold Shader.dist_at in Hd. cbn [Shader.depth_at] in Hm.
  destruct (Rlt_dec _ _) as [Hn | _]; [contradiction |].
  destruct (Rge_dec _ _) as [Hn | _]; [contradiction |].
  rewrite Nat2Z.inj_succ. reflexivity.
Qed.

(** [m] consecutive iterations that take neither exit. *)
Lemma loop_skip (m : nat) :
  forall (n fuel : nat) (st : Z),
    (m = 0%nat \/ Z.of_nat (n + m) <= maxSteps)%Z ->
    (forall j, (n <= j < n + m)%nat -> continues j) ->
    loop (m + fuel) ro rd (Z.of_nat n) (depth_at n) st (samples n)
    = loop fuel ro rd (Z.of_nat (n + m)) (depth_at (n + m))
        (Shader.steps_after st n m) (samples (n + m)).
Proof.
  induction m as [| m IH]; intros n fuel st Hle Hc.
  - rewrite Nat.add_0_r. reflexivity.
  - destruct Hle as [Hle | Hle]; [discriminate |].
    cbn [plus]. rewrite loop_step_continue; [| lia | apply Hc; lia].
    rewrite IH; [| right; lia | intros j Hj; apply Hc; lia].
    replace (S n + m)%nat with (n + S m)%nat by lia.
    f_equal. unfold Shader.steps_after. destruct m; lia.
Qed.

Lemma loop_exit (fuel n : nat) (st : Z) (depth : R) (calls : list Vec3.t) :
  (maxSteps <= Z.of_nat n)%Z ->
  loop fuel ro rd (Z.of_nat n) depth st calls
  = Some (Shader.mkMarch maxDistance st depth calls).
Proof.
  intros Hge.
  destruct fuel; cbn [Shader.rayMarch_loop];
    apply Z.ltb_ge in Hge; rewrite Hge; reflexivity.
Qed.

(** The fuel [rayMarch] passes is enough: the call always returns. *)
Lemma loop_total (fuel : nat) :
  forall (i : Z) (depth : R) (st : Z) (calls : list Vec3.t),
    (Z.to_nat (maxSteps - i) <= fuel)%nat ->
    exists m, loop fuel ro rd i depth st calls = Some m.
Proof.
  induction fuel as [| fuel IH]; intros i depth st calls Hf;
    cbn [Shader.rayMarch_loop].
  - destruct (Z.ltb_spec i maxSteps) as [Hlt | Hge]; [lia | eauto].
  - destruct (Z.ltb_spec i maxSteps) as [Hlt | Hge]; [| eauto].
    destruct (Rlt_dec _ _); [eauto |].
    destruct (Rge_dec _ _); [eauto |].
    apply IH. lia.
Qed.

Lemma rayMarch_total :
  exists m,
    Shader.rayMarch sceneSDF maxSteps maxDistance epsilon ro rd = Some m.
Proof.
  unfold Shader.rayMarch. apply loop_total.
  rewrite Z.sub_0_r. lia.
Qed.

Lemma rayMarch_hit (n : nat) :
  (Z.of_nat n < maxSteps)%Z ->
  (forall j, (j < n)%nat -> continues j) ->
  dist_at n < epsilon ->
  Shader.rayMarch sceneSDF maxSteps maxDistance epsilon ro rd
  = Some (Shader.mkMarch (depth_at n) (Z.of_nat n) (depth_at n)
            (samples (S n))).
Proof.
  intros Hlt Hc Hd. unfold Shader.rayMarch.
  replace (Z.to_nat maxSteps) with (n + S (Z.to_nat maxSteps - n - 1))%nat
    by lia.
  rewrite (loop_skip n 0 _ 0%Z);
    [| right; lia | intros j Hj; apply Hc; lia].
  cbn [plus]. apply loop_step_hit; assumption.
Qed.

Lemma rayMarch_miss (n : nat) :
  (Z.of_nat n < maxSteps)%Z ->
  (forall j, (j < n)%nat -> continues j) ->
  ~ dist_at n < epsilon ->
  depth_at (S n) >= maxDistance ->
  Shader.rayMarch sceneSDF maxSteps maxDistance epsilon ro rd
  = Some (Shader.mkMarch maxDistance maxSteps (depth_at (S n))
            (samples (S n))).
Proof.
  intros Hlt Hc Hd Hm. unfold Shader.rayMarch.
  replace (Z.to_nat maxSteps) with (n + S (Z.to_nat maxSteps - n - 1))%nat
    by lia.
  rewrite (loop_skip n 0 _ 0%Z);
    [| right; lia | intros j Hj; apply Hc; lia].
  cbn [plus]. apply loop_step_miss; assumption.
Qed.

Lemma rayMarch_exhaust :
  (forall j, (Z.of_nat j < maxSteps)%Z -> continues j) ->
  Shader.rayMarch sceneSDF maxSteps maxDistance epsilon ro rd
  = Some (Shader.mkMarch maxDistance (Z.max 0 (maxSteps - 1))
            (depth_at (Z.to_nat maxSteps)) (samples (Z.to_nat maxSteps))).
Proof.
  intros Hc. unfold Shader.rayMarch.
  pose proof (loop_skip (Z.to_nat maxSteps) 0 0 0%Z) as Hskip.
  rewrite Nat.add_0_r in Hskip. cbn [plus] in Hskip.
  etransitivity;
    [apply Hskip; [lia | intros j Hj; apply Hc; lia] |].
  rewrite loop_exit by lia.
  f_equal. f_equal. unfold Shader.steps_after.
  destruct (Z.to_nat maxSteps) eqn:E; lia.
Qed.

End RayMarchFacts.

(** C2 (amended).  With [depth_at] the depth reached after the iterations that
    stayed in the loop: the first iteration [n] whose sample is below
    [epsilon] returns [(depth, steps = n)]; the first one whose new depth
    reaches [maxDistance] returns [(maxDistance, steps = maxSteps)]; and when
    no iteration leaves the loop the call returns [maxDistance] with
    [steps = maxSteps - 1] if [maxSteps >= 1] and [steps = 0] otherwise. *)
Theorem rayMarch_outcomes :
  forall (sceneSDF : Vec3.t -> R) (maxSteps : Z) (maxDistance epsilon : R)
         (ro rd : Vec3.t),
    (forall n : nat,
        (Z.of_nat n < maxSteps)%Z ->
        (forall j, (j < n)%nat ->
           Shader.continues sceneSDF maxDistance epsilon ro rd j) ->
        Shader.dist_at sceneSDF ro rd n < epsilon ->
        Shader.rayMarch sceneSDF maxSteps maxDistance epsilon ro rd
        = Some (Shader.mkMarch
                  (Shader.depth_at sceneSDF ro rd n) (Z.of_nat n)
                  (Shader.depth_at sceneSDF ro rd n)
                  (Shader.samples sceneSDF ro rd (S n))))
    /\ (forall n : nat,
        (Z.of_nat n < maxSteps)%Z ->
        (forall j, (j < n)%nat ->
           Shader.continues sceneSDF maxDistance epsilon ro rd j) ->
        ~ Shader.dist_at sceneSDF ro rd n < epsilon ->
        Shader.depth_at sceneSDF ro rd (S n) >= maxDistance ->
        Shader.rayMarch sceneSDF maxSteps maxDistance epsilon ro rd
        = Some (Shader.mkMarch
                  maxDistance maxSteps
                  (Shader.depth_at sceneSDF ro rd (S n))
                  (Shader.samples sceneSDF ro rd (S n))))
    /\ ((forall j : nat,
           (Z.of_nat j < maxSteps)%Z ->
           Shader.continues sceneSDF maxDistance epsilon ro rd j) ->
        Shader.rayMarch sceneSDF maxSteps maxDistance epsilon ro rd
        = Some (Shader.mkMarch
                  maxDistance
                  (if (1 <=? maxSteps)%Z then (maxSteps - 1)%Z else 0%Z)
                  (Shader.depth_at sceneSDF ro rd (Z.to_nat maxSteps))
                  (Shader.samples sceneSDF ro rd (Z.to_nat maxSteps)))).
Proof.
  intros sceneSDF maxSteps maxDistance epsilon ro rd. split; [| split].
  - intros n. apply rayMarch_hit.
  - intros n. apply rayMarch_miss.
  - intros Hc. rewrite rayMarch_exhaust by exact Hc.
    do 2 f_equal. destruct (Z.leb_spec 1 maxSteps); lia.
Qed.

(** The scene of the examples below: the plane [z = 1], seen from [(0,0,5)]
    along [-z]. *)
Lemma plane_scene_first_iterations :
  let scene := evaluate (Plane (Vec3.mk 0 0 1) (-1)) in
  let ro := Vec3.mk 0 0 5 in
  let rd := Vec3.mk 0 0 (-1) in
  Shader.dist_at scene ro rd 0 = 4
  /\ Shader.depth_at scene ro rd 1 = 4
  /\ Shader.dist_at scene ro rd 1 = 0.
Proof.
  cbv zeta.
  assert (H0 : Shader.dist_at (evaluate (Plane (Vec3.mk 0 0 1) (-1)))
                 (Vec3.mk 0 0 5) (Vec3.mk 0 0 (-1)) 0 = 4).
  { unfold Shader.dist_at; cbn. unfold Plane_evaluate, Vec3.dot; cbn. lra. }
  assert (H1 : Shader.depth_at (evaluate (Plane (Vec3.mk 0 0 1) (-1)))
                 (Vec3.mk 0 0 5) (Vec3.mk 0 0 (-1)) 1 = 4).
  { change (0 + Shader.dist_at (evaluate (Plane (Vec3.mk 0 0 1) (-1)))
                   (Vec3.mk 0 0 5) (Vec3.mk 0 0 (-1)) 0 = 4).
    rewrite H0. lra. }
  repeat split; trivial.
  unfold Shader.dist_at. rewrite H1; cbn.
  unfold Plane_evaluate, Vec3.dot; cbn. lra.
Qed.

Lemma plane_scene_continues (maxDistance : R) :
  4 < maxDistance ->
  forall j, (j < 1)%nat ->
    Shader.continues (evaluate (Plane (Vec3.mk 0 0 1) (-1))) maxDistance 0.001
      (Vec3.mk 0 0 5) (Vec3.mk 0 0 (-1)) j.
Proof.
  intros Hm j Hj. assert (j = 0%nat) by lia. subst j.
  destruct plane_scene_first_iterations as (H0 & H1 & _).
  unfold Shader.continues. rewrite H0, H1. lra.
Qed.

Lemma rayMarch_outcomes_witness :
  let scene := evaluate (Plane (Vec3.mk 0 0 1) (-1)) in
  let ro := Vec3.mk 0 0 5 in
  let rd := Vec3.mk 0 0 (-1) in
  (exists m, Shader.rayMarch scene 100 100 0.001 ro rd = Some m
             /\ Shader.ret m = 4 /\ Shader.steps m = 1%Z)
  /\ (exists m, Shader.rayMarch scene 100 3 0.001 ro rd = Some m
                /\ Shader.ret m = 3 /\ Shader.steps m = 100%Z)
  /\ (exists m, Shader.rayMarch scene 1 100 0.001 ro rd = Some m
                /\ Shader.ret m = 100 /\ Shader.steps m = 0%Z).
Proof.
  cbv zeta.
  destruct plane_scene_first_iterations as (H0 & H1 & H2).
  split; [| split]; eexists; (split; [| split]).
  - apply (proj1 (rayMarch_outcomes _ 100 100 0.001 _ _) 1%nat).
    + lia.
    + apply plane_scene_continues; lra.
    + rewrite H2; lra.
  - cbn [Shader.ret]. exact H1.
  - reflexivity.
  - apply (proj1 (proj2 (rayMarch_outcomes _ 100 3 0.001 _ _)) 0%nat).
    + lia.
    + intros j Hj; lia.
    + rewrite H0; lra.
    + rewrite H1; lra.
  - reflexivity.
  - reflexivity.
  - apply (proj2 (proj2 (rayMarch_outcomes _ 1 100 0.001 _ _))).
    intros j Hj. apply plane_scene_continues; [lra | lia].
  - reflexivity.
  - reflexivity.
Defined.

(** C2, as stated, fails for [maxSteps = 0]: no iteration runs, so none takes
    an exit, and [steps] keeps its initial value [0], which is not
    [maxSteps - 1 = -1]. *)
Lemma rayMarch_exhaust_steps_counterexample :
  (forall j : nat,
      (Z.of_nat j < 0)%Z ->
      Shader.continues (evaluate (Plane (Vec3.mk 0 0 1) (-1))) 100 0.001
        (Vec3.mk 0 0 5) (Vec3.mk 0 0 (-1)) j)
  /\ Shader.rayMarch (evaluate (Plane (Vec3.mk 0 0 1) (-1))) 0 100 0.001
       (Vec3.mk 0 0 5) (Vec3.mk 0 0 (-1))
     = Some (Shader.mkMarch 100 0 0 [])
  /\ Shader.steps (Shader.mkMarch 100 0 0 []) <> (0 - 1)%Z.
Proof.
  split; [intros j Hj; lia | split; [reflexivity | cbn; lia]].
Qed.

(** C7.  With [maxSteps = 0] the loop test fails at once: [rayMarch] returns
    [maxDistance], which [main] treats as a miss, leaves [steps] and [depth]
    at [0], and has not called [sceneSDF]. *)
Theorem rayMarch_zero_steps :
  forall (sceneSDF : Vec3.t -> R) (maxDistance epsilon : R) (ro rd : Vec3.t),
    Shader.rayMarch sceneSDF 0 maxDistance epsilon ro rd
    = Some (Shader.mkMarch maxDistance 0 0 [])
    /\ Shader.is_miss maxDistance (Shader.mkMarch maxDistance 0 0 []).
Proof.
  intros sceneSDF maxDistance epsilon ro rd. split.
  - reflexivity.
  - unfold Shader.is_miss; cbn. lra.
Qed.

(** ** Configuration *)

(** C6 (amended).  Nothing is validated: [setRaymarchingParams] returns for
    every triple of arguments and stores it as given, leaving the other
    members alone, and the constructors of the smooth operations return for
    every blend factor and store it as given. *)
Theorem configuration_stored_unchecked :
  (forall (r : Renderer.t) (steps : Z) (distance eps : R),
      exists r' : Renderer.t,
        Renderer.setRaymarchingParams r steps distance eps = Returned r'
        /\ Renderer.maxSteps r' = steps
        /\ Renderer.maxDistance r' = distance
        /\ Renderer.epsilon r' = eps
        /\ Renderer.scene r' = Renderer.scene r
        /\ Renderer.width r' = Renderer.width r
        /\ Renderer.height r' = Renderer.height r
        /\ Renderer.cameraPosition r' = Renderer.cameraPosition r
        /\ Renderer.cameraTarget r' = Renderer.cameraTarget r
        /\ Renderer.cameraUp r' = Renderer.cameraUp r
        /\ Renderer.fieldOfView r' = Renderer.fieldOfView r
        /\ Renderer.lightPosition r' = Renderer.lightPosition r
        /\ Renderer.lightColor r' = Renderer.lightColor r
        /\ Renderer.ambientStrength r' = Renderer.ambientStrength r)
  /\ (forall (left right : ImplicitSurface) (k : R),
      new_SmoothUnionOp left right k = Returned (SmoothUnionOp left right k)
      /\ new_SmoothIntersectionOp left right k
         = Returned (SmoothIntersectionOp left right k)
      /\ new_SmoothDifferenceOp left right k
         = Returned (SmoothDifferenceOp left right k)).
Proof.
  split.
  - intros r steps distance eps. eexists. split; [reflexivity |].
    cbn. repeat split.
  - intros left right k. repeat split.
Qed.

(** C6, as stated, fails: [maxSteps = 0] with [epsilon = 0] is accepted by
    [setRaymarchingParams], and [k = 0] by the constructor of
    [SmoothUnionOp]; neither call throws. *)
Lemma invalid_configuration_accepted :
  ((0 <= 0)%Z /\ (0 : R) <= 0
   /\ (exists r' : Renderer.t,
         Renderer.setRaymarchingParams (Renderer.new 800 600) 0 100 0
         = Returned r'
         /\ Renderer.maxSteps r' = 0%Z /\ Renderer.epsilon r' = 0)
   /\ (forall what : string,
         Renderer.setRaymarchingParams (Renderer.new 800 600) 0 100 0
         <> Thrown what))
  /\ ((0 : R) <= 0
      /\ new_SmoothUnionOp (Sphere Vec3.zero 1) (Sphere Vec3.zero 1) 0
         = Returned (SmoothUnionOp (Sphere Vec3.zero 1) (Sphere Vec3.zero 1) 0)
      /\ (forall what : string,
            new_SmoothUnionOp (Sphere Vec3.zero 1) (Sphere Vec3.zero 1) 0
            <> Thrown what)).
Proof.
  repeat split; try lia; try lra; try discriminate.
  eexists. split; [reflexivity |]. split; reflexivity.
Qed.

(** * Further properties of the code *)

(** ** Vec3 as a normed space *)

Lemma Rsqr_le_nonneg (a b : R) : 0 <= a -> 0 <= b -> a * a <= b * b -> a <= b.
Proof. intros Ha Hb H. nra. Qed.

Lemma dot_self (v : Vec3.t) : Vec3.dot v v = Vec3.length v * Vec3.length v.
Proof. rewrite length_square. reflexivity. Qed.

Lemma length_pos (v : Vec3.t) : 0 <= Vec3.length v.
Proof. unfold Vec3.length, Std.sqrt. apply sqrt_pos. Qed.

Lemma dot_le_lengths (a b : Vec3.t) :
  Vec3.dot a b <= Vec3.length a * Vec3.length b.
Proof.
  pose proof (length_pos a) as Ha. pose proof (length_pos b) as Hb.
  pose proof (length_square a) as Ea. pose proof (length_square b) as Eb.
  destruct (Rle_dec (Vec3.dot a b) (Vec3.length a * Vec3.length b))
    as [H | H]; [exact H | exfalso].
  apply Rnot_le_lt in H.
  set (A := Vec3.length a) in *. set (B := Vec3.length b) in *.
  assert (HAB : 0 <= A * B) by (apply Rmult_le_pos; assumption).
  assert (H1 : (A * B) * (A * B) < Vec3.dot a b * Vec3.dot a b) by nra.
  assert (H2 : (A * B) * (A * B) = (A * A) * (B * B)) by ring.
  rewrite H2, Ea, Eb in H1.
  destruct a as [a1 a2 a3], b as [b1 b2 b3]. unfold Vec3.dot in H1.
  cbn [Vec3.x Vec3.y Vec3.z] in H1.
  pose proof (Rle_0_sqr (a1 * b2 - a2 * b1)) as L1.
  pose proof (Rle_0_sqr (a1 * b3 - a3 * b1)) as L2.
  pose proof (Rle_0_sqr (a2 * b3 - a3 * b2)) as L3.
  unfold Rsqr in L1, L2, L3. nra.
Qed.

Lemma opp_dot (a b : Vec3.t) :
  Vec3.dot (Vec3.scale a (-1)) b = - Vec3.dot a b.
Proof. unfold Vec3.dot, Vec3.scale; cbn. ring. Qed.

Lemma length_scale (a : Vec3.t) (s : R) :
  Vec3.length (Vec3.scale a s) = Rabs s * Vec3.length a.
Proof.
  unfold Vec3.length, Vec3.scale, Std.sqrt; cbn [Vec3.x Vec3.y Vec3.z].
  replace (Vec3.x a * s * (Vec3.x a * s) + Vec3.y a * s * (Vec3.y a * s)
           + Vec3.z a * s * (Vec3.z a * s))
    with (Rsqr s * (Vec3.x a * Vec3.x a + Vec3.y a * Vec3.y a
                    + Vec3.z a * Vec3.z a))
    by (unfold Rsqr; ring).
  rewrite sqrt_mult; [| apply Rle_0_sqr | apply sum_squares_nonneg].
  rewrite sqrt_Rsqr_abs. reflexivity.
Qed.

Lemma abs_dot_le_lengths (a b : Vec3.t) :
  Rabs (Vec3.dot a b) <= Vec3.length a * Vec3.length b.
Proof.
  apply Rabs_le. split; [| apply dot_le_lengths].
  pose proof (dot_le_lengths (Vec3.scale a (-1)) b) as H.
  rewrite opp_dot, length_scale in H.
  replace (Rabs (-1)) with 1 in H
    by (unfold Rabs; destruct (Rcase_abs (-1)); lra).
  lra.
Qed.

Lemma length_add_le (a b : Vec3.t) :
  Vec3.length (Vec3.add a b) <= Vec3.length a + Vec3.length b.
Proof.
  pose proof (length_pos a) as Ha. pose proof (length_pos b) as Hb.
  apply Rsqr_le_nonneg; [apply length_pos | lra |].
  rewrite (length_square (Vec3.add a b)).
  pose proof (dot_le_lengths a b) as Hd.
  pose proof (length_square a) as Ea. pose proof (length_square b) as Eb.
  unfold Vec3.dot in Hd. unfold Vec3.add; cbn [Vec3.x Vec3.y Vec3.z].
  nra.
Qed.

Lemma length_sub_sym (a b : Vec3.t) :
  Vec3.length (Vec3.sub a b) = Vec3.length (Vec3.sub b a).
Proof.
  unfold Vec3.length, Vec3.sub; cbn [Vec3.x Vec3.y Vec3.z].
  f_equal. ring.
Qed.

Lemma sub_add_cancel (a b : Vec3.t) : Vec3.add (Vec3.sub a b) b = a.
Proof.
  destruct a, b. unfold Vec3.add, Vec3.sub; cbn. f_equal; ring.
Qed.

Lemma length_diff_le (a b : Vec3.t) :
  Rabs (Vec3.length a - Vec3.length b) <= Vec3.length (Vec3.sub a b).
Proof.
  apply Rabs_le. split.
  - pose proof (length_add_le (Vec3.sub b a) a) as H.
    rewrite sub_add_cancel, (length_sub_sym b a) in H. lra.
  - pose proof (length_add_le (Vec3.sub a b) b) as H.
    rewrite sub_add_cancel in H. lra.
Qed.

(** X1.  [normalize] is idempotent: normalizing an already normalized vector
    changes nothing, for the zero vector as for every other one. *)
Theorem normalize_idempotent :
  forall v : Vec3.t,
    Vec3.normalize (Vec3.normalize v) = Vec3.normalize v.
Proof.
  intros v. destruct (Req_dec_T (Vec3.length v) 0) as [He | Hne].
  - rewrite (normalize_zero_length v He). apply normalize_zero_length, He.
  - pose proof (length_normalize v Hne) as H1.
    rewrite (normalize_nonzero_length (Vec3.normalize v)) by lra.
    rewrite H1. destruct (Vec3.normalize v) as [a b c]; cbn.
    f_equal; field.
Qed.

(** X2.  [length] is a norm that [dot] respects: the triangle inequality,
    homogeneity under [operator*], the Cauchy-Schwarz bound, and only the
    zero vector has length 0. *)
Theorem length_is_norm :
  forall (a b : Vec3.t) (s : R),
    Vec3.length (Vec3.add a b) <= Vec3.length a + Vec3.length b
    /\ Vec3.length (Vec3.scale a s) = Rabs s * Vec3.length a
    /\ Rabs (Vec3.dot a b) <= Vec3.length a * Vec3.length b
    /\ 0 <= Vec3.length a
    /\ (Vec3.length a = 0 <-> a = Vec3.zero).
Proof.
  intros a b s. repeat split.
  - apply length_add_le.
  - apply length_scale.
  - apply abs_dot_le_lengths.
  - apply length_pos.
  - apply length_zero_iff.
  - apply length_zero_iff.
Qed.

(** ** The primitives *)

Lemma sub_sub_common (p q c : Vec3.t) :
  Vec3.sub (Vec3.sub p c) (Vec3.sub q c) = Vec3.sub p q.
Proof. unfold Vec3.sub; cbn. f_equal; ring. Qed.

Lemma sphere_lipschitz_aux (center : Vec3.t) (radius : R) (p q : Vec3.t) :
  Rabs (evaluate (Sphere center radius) p - evaluate (Sphere center radius) q)
  <= Vec3.length (Vec3.sub p q).
Proof.
  cbn [evaluate]. unfold Sphere_evaluate.
  rewrite <- (sub_sub_common p q center).
  replace (Vec3.length (Vec3.sub p center) - radius
           - (Vec3.length (Vec3.sub q center) - radius))
    with (Vec3.length (Vec3.sub p center) - Vec3.length (Vec3.sub q center))
    by ring.
  apply length_diff_le.
Qed.

(** X3.  The field of a sphere changes by at most the distance between two
    points, whatever the centre and the radius (also a negative radius). *)
Theorem sphere_lipschitz :
  forall (center : Vec3.t) (radius : R),
    Lipschitz1 (evaluate (Sphere center radius)).
Proof.
  intros center radius p q. apply sphere_lipschitz_aux.
Qed.

Lemma dot_sub_r (n p q : Vec3.t) :
  Vec3.dot n p - Vec3.dot n q = Vec3.dot n (Vec3.sub p q).
Proof. unfold Vec3.dot, Vec3.sub; cbn. ring. Qed.

Lemma plane_unit_lipschitz (n : Vec3.t) (d : R) :
  Vec3.length n = 1 -> Lipschitz1 (evaluate (Plane n d)).
Proof.
  intros Hn p q. cbn [evaluate]. unfold Plane_evaluate.
  replace (Vec3.dot n p + d - (Vec3.dot n q + d))
    with (Vec3.dot n (Vec3.sub p q)) by (rewrite <- dot_sub_r; ring).
  pose proof (abs_dot_le_lengths n (Vec3.sub p q)) as H.
  rewrite Hn in H. lra.
Qed.






(** X5.  A plane built from the zero normal is accepted: its field is the
    constant [distance] at every point and its gradient is the zero vector. *)
Theorem plane_zero_normal :
  forall (distance : R) (p : Vec3.t),
    evaluate (new_Plane Vec3.zero distance) p = distance
    /\ gradient (new_Plane Vec3.zero distance) p = Vec3.zero.
Proof.
  intros distance p. unfold new_Plane. rewrite normalize_zero.
  assert (He : forall q, evaluate (Plane Vec3.zero distance) q = distance).
  { intros q. cbn [evaluate]. unfold Plane_evaluate, Vec3.dot, Vec3.zero; cbn.
    ring. }
  split; [apply He |].
  unfold gradient, gradient_of. cbv zeta. rewrite !He.
  replace (distance - distance) with 0 by ring. apply normalize_zero.
Qed.

(** *** Box *)

Lemma abs_x_le_length (v : Vec3.t) : Rabs (Vec3.x v) <= Vec3.length v.
Proof.
  pose proof (length_pos v) as Hl. pose proof (length_square v) as Hs.
  apply Rabs_le. split; nra.
Qed.

Lemma abs_y_le_length (v : Vec3.t) : Rabs (Vec3.y v) <= Vec3.length v.
Proof.
  pose proof (length_pos v) as Hl. pose proof (length_square v) as Hs.
  apply Rabs_le. split; nra.
Qed.

Lemma abs_z_le_length (v : Vec3.t) : Rabs (Vec3.z v) <= Vec3.length v.
Proof.
  pose proof (length_pos v) as Hl. pose proof (length_square v) as Hs.
  apply Rabs_le. split; nra.
Qed.

(** The part of [Box::evaluate] after the three differences are formed. *)
Lemma box_core_inside (dx dy dz : R) :
  dx <= 0 -> dy <= 0 -> dz <= 0 ->
  Vec3.length (Vec3.mk (Std.max dx 0) (Std.max dy 0) (Std.max dz 0))
  + Std.min (Std.max dx (Std.max dy dz)) 0
  = Rmax dx (Rmax dy dz).
Proof.
  intros Hx Hy Hz.
  assert (Ex : Std.max dx 0 = 0) by (unfold Std.max; case_Rlt).
  assert (Ey : Std.max dy 0 = 0) by (unfold Std.max; case_Rlt).
  assert (Ez : Std.max dz 0 = 0) by (unfold Std.max; case_Rlt).
  rewrite Ex, Ey, Ez. change (Vec3.mk 0 0 0) with Vec3.zero.
  rewrite length_zero, !std_max_Rmax, std_min_Rmin.
  rewrite Rmin_left; [ring |].
  apply Rmax_lub; [| apply Rmax_lub]; assumption.
Qed.

Lemma box_core_outside (dx dy dz : R) :
  0 < dx \/ 0 < dy \/ 0 < dz ->
  0 < Vec3.length (Vec3.mk (Std.max dx 0) (Std.max dy 0) (Std.max dz 0))
      + Std.min (Std.max dx (Std.max dy dz)) 0.
Proof.
  intros H.
  set (v := Vec3.mk (Std.max dx 0) (Std.max dy 0) (Std.max dz 0)).
  assert (Hm : Std.min (Std.max dx (Std.max dy dz)) 0 = 0).
  { rewrite !std_max_Rmax, std_min_Rmin. apply Rmin_right.
    pose proof (Rmax_l dx (Rmax dy dz)). pose proof (Rmax_r dx (Rmax dy dz)).
    pose proof (Rmax_l dy dz). pose proof (Rmax_r dy dz).
    destruct H as [H | [H | H]]; lra. }
  rewrite Hm, Rplus_0_r.
  assert (Hx : Rabs (Std.max dx 0) <= Vec3.length v)
    by apply (abs_x_le_length v).
  assert (Hy : Rabs (Std.max dy 0) <= Vec3.length v)
    by apply (abs_y_le_length v).
  assert (Hz : Rabs (Std.max dz 0) <= Vec3.length v)
    by apply (abs_z_le_length v).
  rewrite std_max_Rmax in Hx, Hy, Hz.
  pose proof (Rmax_l dx 0). pose proof (Rmax_l dy 0). pose proof (Rmax_l dz 0).
  pose proof (Rle_abs (Rmax dx 0)). pose proof (Rle_abs (Rmax dy 0)).
  pose proof (Rle_abs (Rmax dz 0)).
  destruct H as [H | [H | H]]; lra.
Qed.

(** X6.  The field of a [Box] is at most [-smoothing] exactly on the closed
    box [center +- dimensions]; there it is the largest of the three signed
    face distances, less [smoothing].  So the surface of a box with positive
    smoothing lies outside the box the dimensions describe. *)
Theorem box_inside_iff :
  forall (center dimensions : Vec3.t) (smoothing : R) (p : Vec3.t),
    let dx := Rabs (Vec3.x p - Vec3.x center) - Vec3.x dimensions in
    let dy := Rabs (Vec3.y p - Vec3.y center) - Vec3.y dimensions in
    let dz := Rabs (Vec3.z p - Vec3.z center) - Vec3.z dimensions in
    (evaluate (Box center dimensions smoothing) p <= - smoothing
     <-> dx <= 0 /\ dy <= 0 /\ dz <= 0)
    /\ (dx <= 0 /\ dy <= 0 /\ dz <= 0 ->
        evaluate (Box center dimensions smoothing) p
        = Rmax dx (Rmax dy dz) - smoothing).
Proof.
  intros center dimensions smoothing p dx dy dz.
  cbn [evaluate]. unfold Box_evaluate, Std.abs. cbv zeta.
  cbn [Vec3.x Vec3.y Vec3.z]. fold dx dy dz.
  assert (Hin : dx <= 0 /\ dy <= 0 /\ dz <= 0 ->
    Vec3.length (Vec3.mk (Std.max dx 0) (Std.max dy 0) (Std.max dz 0))
    + Std.min (Std.max dx (Std.max dy dz)) 0 - smoothing
    = Rmax dx (Rmax dy dz) - smoothing).
  { intros (Hx & Hy & Hz). rewrite box_core_inside by assumption.
    reflexivity. }
  split; [split |]; [| | exact Hin].
  - intros Hle.
    destruct (Rle_dec dx 0) as [Hx | Hx], (Rle_dec dy 0) as [Hy | Hy],
      (Rle_dec dz 0) as [Hz | Hz]; try (repeat split; assumption);
      exfalso;
      match goal with
      | _ => pose proof (box_core_outside dx dy dz) as Ho;
             assert (Hc : 0 < dx \/ 0 < dy \/ 0 < dz) by
               (first [ left; lra | right; left; lra | right; right; lra ]);
             specialize (Ho Hc); lra
      end.
  - intros Hall. rewrite (Hin Hall). destruct Hall as (Hx & Hy & Hz).
    assert (Rmax dx (Rmax dy dz) <= 0)
      by (apply Rmax_lub; [| apply Rmax_lub]; assumption).
    lra.
Qed.

(** *** Cylinder *)

Lemma clamp_scale (q L : R) :
  0 < L -> Std.max 0 (Std.min L (q * L)) = Shader.clamp q 0 1 * L.
Proof.
  intros HL.
  assert (Hneg : q < 0 -> q * L < 0) by (intros; nra).
  assert (Hpos : ~ q < 0 -> 0 <= q * L) by (intros; nra).
  assert (Hbig : 1 < q -> L < q * L) by (intros; nra).
  assert (Hsmall : ~ 1 < q -> q * L <= L) by (intros; nra).
  unfold Std.max, Std.min, Shader.clamp, Shader.min, Shader.max.
  destruct (Rlt_dec q 0) as [H2 | H2]; cbv iota.
  - specialize (Hneg H2).
    destruct (Rlt_dec (q * L) L); [| lra].
    destruct (Rlt_dec 0 (q * L)); [lra |].
    destruct (Rlt_dec 1 0); lra.
  - specialize (Hpos H2).
    destruct (Rlt_dec 1 q) as [H3 | H3].
    + specialize (Hbig H3).
      destruct (Rlt_dec (q * L) L); [lra |].
      destruct (Rlt_dec 0 L); lra.
    + specialize (Hsmall H3).
      destruct (Rlt_dec (q * L) L).
      * destruct (Rlt_dec 0 (q * L)); lra.
      * destruct (Rlt_dec 0 L); lra.
Qed.

(** X7.  For distinct end points the object model's [Cylinder] and the
    shader's [cylinderSDF] are the same function of the point. *)
Theorem cylinder_matches_shader :
  forall (start end_ : Vec3.t) (radius : R) (p : Vec3.t),
    Vec3.length (Vec3.sub end_ start) <> 0 ->
    evaluate (Cylinder start end_ radius) p
    = Shader.cylinderSDF p start end_ radius.
Proof.
  intros start end_ radius p Hne. cbn [evaluate].
  unfold Cylinder_evaluate, Cylinder_closestPoint, Cylinder_dot,
    Cylinder_axis, Shader.cylinderSDF. cbv zeta.
  change (Shader.vsub end_ start) with (Vec3.sub end_ start).
  change (Shader.vsub p start) with (Vec3.sub p start).
  set (ba := Vec3.sub end_ start) in *. set (pa := Vec3.sub p start).
  set (L := Vec3.length ba) in *.
  assert (HL : 0 < L)
    by (pose proof (length_pos ba) as Hp; fold L in Hp; lra).
  assert (Hbb : Shader.dot ba ba = L * L)
    by (unfold L; rewrite length_square; reflexivity).
  set (q := Shader.dot pa ba / Shader.dot ba ba).
  assert (Ht : Vec3.dot pa (Vec3.normalize ba) = q * L).
  { rewrite (normalize_nonzero_length ba Hne). fold L.
    unfold q. rewrite Hbb. unfold Vec3.dot, Shader.dot.
    cbn [Vec3.x Vec3.y Vec3.z]. field. lra. }
  rewrite Ht, (clamp_scale q L HL).
  set (h := Shader.clamp q 0 1).
  rewrite (normalize_nonzero_length ba Hne). fold L.
  unfold Shader.length, Vec3.length, Std.sqrt. f_equal. f_equal.
  destruct start as [sx sy sz], p as [px py pz].
  unfold pa, Vec3.sub, Vec3.add, Vec3.scale, Shader.vsub, Shader.smul.
  cbn [Vec3.x Vec3.y Vec3.z]. field. lra.
Qed.

Lemma length_custom_axis :
  Vec3.length (Vec3.sub (Vec3.mk 0 0 1.5) (Vec3.mk 0 0 (-1.5))) <> 0.
Proof.
  unfold Vec3.length, Vec3.sub, Std.sqrt; cbn.
  apply Rgt_not_eq, Rlt_gt, sqrt_lt_R0. lra.
Qed.

Lemma cylinder_matches_shader_witness :
  Vec3.length (Vec3.sub (Vec3.mk 0 0 1.5) (Vec3.mk 0 0 (-1.5))) <> 0
  /\ evaluate (Cylinder (Vec3.mk 0 0 (-1.5)) (Vec3.mk 0 0 1.5) 0.4) Vec3.zero
     = Shader.cylinderSDF Vec3.zero (Vec3.mk 0 0 (-1.5)) (Vec3.mk 0 0 1.5) 0.4.
Proof.
  split; [exact length_custom_axis |].
  exact (cylinder_matches_shader _ _ 0.4 Vec3.zero length_custom_axis).
Defined.

(** ** The hard boolean operations as set operations *)

Ltac unfold_hard :=
  cbn [evaluate];
  unfold UnionOp_combine, IntersectionOp_combine, DifferenceOp_combine,
    Std.min, Std.max.

(** X8.  Union and intersection are commutative, associative and idempotent,
    each absorbs the other, and union is intersection seen through negation
    of the fields. *)
Theorem hard_boolean_lattice :
  forall (a b c : ImplicitSurface) (p : Vec3.t),
    evaluate (UnionOp a b) p = evaluate (UnionOp b a) p
    /\ evaluate (IntersectionOp a b) p = evaluate (IntersectionOp b a) p
    /\ evaluate (UnionOp a (UnionOp b c)) p
       = evaluate (UnionOp (UnionOp a b) c) p
    /\ evaluate (IntersectionOp a (IntersectionOp b c)) p
       = evaluate (IntersectionOp (IntersectionOp a b) c) p
    /\ evaluate (UnionOp a a) p = evaluate a p
    /\ evaluate (IntersectionOp a a) p = evaluate a p
    /\ evaluate (UnionOp a (IntersectionOp a b)) p = evaluate a p
    /\ evaluate (IntersectionOp a (UnionOp a b)) p = evaluate a p
    /\ evaluate (UnionOp a b) p
       = - IntersectionOp_combine (- evaluate a p) (- evaluate b p).
Proof.
  intros a b c p. unfold_hard.
  generalize (evaluate a p) (evaluate b p) (evaluate c p). intros u v w.
  repeat split; repeat case_Rlt; lra.
Qed.

(** X9.  A point is strictly inside a union when it is inside one child,
    inside an intersection when it is inside both, and inside a difference
    when it is inside the left child and strictly outside the right one. *)
Theorem hard_boolean_inside :
  forall (a b : ImplicitSurface) (p : Vec3.t),
    (evaluate (UnionOp a b) p < 0 <-> evaluate a p < 0 \/ evaluate b p < 0)
    /\ (evaluate (IntersectionOp a b) p < 0
        <-> evaluate a p < 0 /\ evaluate b p < 0)
    /\ (evaluate (DifferenceOp a b) p < 0
        <-> evaluate a p < 0 /\ 0 < evaluate b p).
Proof.
  intros a b p. unfold_hard.
  generalize (evaluate a p) (evaluate b p). intros u v.
  repeat match goal with
         | |- context [Rlt_dec ?x ?y] => destruct (Rlt_dec x y)
         end;
    cbv iota; repeat split; intros; try lra;
    match goal with
    | H : _ \/ _ |- _ => destruct H; lra
    | H : _ /\ _ |- _ => destruct H; lra
    | |- _ \/ _ => first [ left; lra | right; lra ]
    end.
Qed.

Lemma abs_le_bounds (a b : R) : Rabs a <= b -> - b <= a <= b.
Proof. unfold Rabs. destruct (Rcase_abs a); lra. Qed.

Lemma min_close (D a a' b b' : R) :
  Rabs (a - a') <= D -> Rabs (b - b') <= D ->
  Rabs (Std.min a b - Std.min a' b') <= D.
Proof.
  intros Ha Hb. apply abs_le_bounds in Ha. apply abs_le_bounds in Hb.
  apply Rabs_le. unfold Std.min. repeat case_Rlt; lra.
Qed.

Lemma max_close (D a a' b b' : R) :
  Rabs (a - a') <= D -> Rabs (b - b') <= D ->
  Rabs (Std.max a b - Std.max a' b') <= D.
Proof.
  intros Ha Hb. apply abs_le_bounds in Ha. apply abs_le_bounds in Hb.
  apply Rabs_le. unfold Std.max. repeat case_Rlt; lra.
Qed.

Lemma opp_close (D b b' : R) : Rabs (b - b') <= D -> Rabs (- b - - b') <= D.
Proof.
  intros Hb. apply abs_le_bounds in Hb. apply Rabs_le. lra.
Qed.

Lemma hard_ops_lipschitz (l r : ImplicitSurface) :
  Lipschitz1 (evaluate l) -> Lipschitz1 (evaluate r) ->
  Lipschitz1 (evaluate (UnionOp l r))
  /\ Lipschitz1 (evaluate (IntersectionOp l r))
  /\ Lipschitz1 (evaluate (DifferenceOp l r)).
Proof.
  intros Hl Hr. repeat split; intros p q; cbn [evaluate];
    unfold UnionOp_combine, IntersectionOp_combine, DifferenceOp_combine.
  - apply min_close; [apply Hl | apply Hr].
  - apply max_close; [apply Hl | apply Hr].
  - apply max_close; [apply Hl | apply opp_close, Hr].
Qed.

(** X10.  Hard boolean operations keep the sphere-tracing bound: if every
    leaf of a tree of unions, intersections and differences changes by at
    most the distance between two points, so does the whole tree. *)
Theorem hard_csg_lipschitz :
  forall s : ImplicitSurface, hard_csg s -> Lipschitz1 (evaluate s).
Proof.
  induction s as [ | | | | l IHl r IHr | l IHl r IHr | l IHl r IHr
                 | l IHl r IHr k | l IHl r IHr k | l IHl r IHr k ];
    cbn [hard_csg]; intros H; try exact H; try contradiction;
    destruct H as [Hl Hr];
    apply (hard_ops_lipschitz l r (IHl Hl) (IHr Hr)).
Qed.

Lemma hard_csg_lipschitz_witness :
  hard_csg Renderer.createCSGUnionScene
  /\ Lipschitz1 (evaluate Renderer.createCSGUnionScene).
Proof.
  assert (H : hard_csg Renderer.createCSGUnionScene).
  { split; intros p q; apply sphere_lipschitz_aux. }
  split; [exact H |].
  exact (hard_csg_lipschitz Renderer.createCSGUnionScene H).
Defined.

(** ** What a call of [rayMarch] returns *)

Section RayMarchResults.

Variable sceneSDF : Vec3.t -> R.
Variable maxSteps : Z.
Variable maxDistance : R.
Variable epsilon : R.
Variables ro rd : Vec3.t.

Local Abbreviation loop :=
  (Shader.rayMarch_loop sceneSDF maxSteps maxDistance epsilon).
Local Abbreviation depth_at := (Shader.depth_at sceneSDF ro rd).
Local Abbreviation dist_at := (Shader.dist_at sceneSDF ro rd).
Local Abbreviation samples := (Shader.samples sceneSDF ro rd).
Local Abbreviation continues :=
  (Shader.continues sceneSDF maxDistance epsilon ro rd).
Local Abbreviation hit :=
  (march_hit sceneSDF maxSteps maxDistance epsilon ro rd).
Local Abbreviation far :=
  (march_far sceneSDF maxSteps maxDistance epsilon ro rd).
Local Abbreviation exhausted :=
  (march_exhausted sceneSDF maxSteps maxDistance epsilon ro rd).

Lemma continues_from (n k : nat) :
  continues n ->
  (forall j, (S n <= j < k)%nat -> continues j) ->
  forall j, (n <= j < k)%nat -> continues j.
Proof.
  intros Hn Hc j Hj. destruct (Nat.eq_dec j n) as [-> | Hne];
    [exact Hn | apply Hc; lia].
Qed.

(** Every run of the loop ends in one of the three ways. *)
Lemma loop_inv (fuel : nat) :
  forall (n : nat) (st : Z) (m : Shader.March),
    loop fuel ro rd (Z.of_nat n) (depth_at n) st (samples n) = Some m ->
    (exists k, hit n k m) \/ (exists k, far n k m)
    \/ (exists k, exhausted st n k m).
Proof.
  assert (Hnone : forall n j : nat, (n <= j < n)%nat -> continues j)
    by (intros n j Hj; lia).
  assert (Hstop : forall (n : nat) (st : Z),
            (maxSteps <= Z.of_nat n)%Z ->
            exhausted st n n
              (Shader.mkMarch maxDistance st (depth_at n) (samples n))).
  { intros n st Hge. unfold march_exhausted. rewrite Nat.sub_diag.
    refine (conj _ (conj Hge (conj (or_introl eq_refl)
                                   (conj (Hnone n) eq_refl)))). lia. }
  induction fuel as [| fuel IH]; intros n st m H.
  - cbn [Shader.rayMarch_loop] in H.
    destruct (Z.ltb_spec (Z.of_nat n) maxSteps) as [Hlt | Hge];
      [discriminate |].
    injection H as <-. right; right. exists n.
    apply (Hstop n st), Hge.
  - destruct (Z.ltb_spec (Z.of_nat n) maxSteps) as [Hlt | Hge].
    + destruct (Rlt_dec (dist_at n) epsilon) as [Hd | Hd].
      * rewrite loop_step_hit in H by assumption. injection H as <-.
        left. exists n. unfold march_hit.
        refine (conj _ (conj Hlt (conj (Hnone n) (conj Hd eq_refl)))). lia.
      * destruct (Rge_dec (depth_at (S n)) maxDistance) as [Hm | Hm].
        -- rewrite loop_step_miss in H by assumption. injection H as <-.
           right; left. exists n. unfold march_far.
           refine (conj _ (conj Hlt (conj (Hnone n)
                                      (conj Hd (conj Hm eq_refl))))). lia.
        -- assert (Hc : continues n) by (split; assumption).
           rewrite loop_step_continue in H by assumption.
           apply IH in H.
           destruct H as [[k Hk] | [[k Hk] | [k Hk]]].
           ++ left. exists k. destruct Hk as (H1 & H2 & H3 & H4 & H5).
              unfold march_hit.
              refine (conj _ (conj H2 (conj _ (conj H4 H5))));
                [lia | apply continues_from; assumption].
           ++ right; left. exists k.
              destruct Hk as (H1 & H2 & H3 & H4 & H5 & H6).
              unfold march_far.
              refine (conj _ (conj H2 (conj _ (conj H4 (conj H5 H6)))));
                [lia | apply continues_from; assumption].
           ++ right; right. exists k.
              destruct Hk as (H1 & H2 & H3 & H4 & H5).
              unfold march_exhausted.
              refine (conj _ (conj H2 (conj _ (conj _ _))));
                [lia | right; lia | apply continues_from; assumption |].
              rewrite H5. f_equal. unfold Shader.steps_after.
              destruct (k - S n)%nat eqn:E1; destruct (k - n)%nat eqn:E2;
                lia.
    + rewrite loop_exit in H by assumption. injection H as <-.
      right; right. exists n. apply (Hstop n st), Hge.
Qed.

Lemma rayMarch_inv (m : Shader.March) :
  Shader.rayMarch sceneSDF maxSteps maxDistance epsilon ro rd = Some m ->
  (exists k, hit 0 k m) \/ (exists k, far 0 k m)
  \/ (exists k, exhausted 0%Z 0 k m).
Proof. intros H. apply (loop_inv (Z.to_nat maxSteps) 0 0%Z m). exact H. Qed.

Lemma samples_length (n : nat) : List.length (samples n) = n.
Proof.
  induction n as [| n IH]; [reflexivity |].
  cbn [Shader.samples]. rewrite length_app, IH. cbn. lia.
Qed.

Lemma depth_before_hit (k : nat) :
  0 < maxDistance ->
  (forall j, (0 <= j < k)%nat -> continues j) ->
  depth_at k < maxDistance.
Proof.
  intros Hm Hc. destruct k as [| k]; [exact Hm |].
  destruct (Hc k ltac:(lia)) as [_ Hn]. apply Rnot_ge_lt, Hn.
Qed.

Lemma rayMarch_result_cases (m : Shader.March) :
  0 < maxDistance ->
  Shader.rayMarch sceneSDF maxSteps maxDistance epsilon ro rd = Some m ->
  (Shader.ret m < maxDistance
   /\ Shader.ret m = Shader.depth m
   /\ sceneSDF (ray_point ro rd (Shader.ret m)) < epsilon
   /\ (0 <= Shader.steps m < maxSteps)%Z
   /\ List.length (Shader.calls m) = S (Z.to_nat (Shader.steps m)))
  \/ (Shader.ret m = maxDistance
      /\ (0 <= Shader.steps m <= Z.max 0 maxSteps)%Z
      /\ (List.length (Shader.calls m) <= Z.to_nat maxSteps)%nat).
Proof.
  intros Hmax H.
  destruct (rayMarch_inv m H) as [[k Hk] | [[k Hk] | [k Hk]]].
  - left. destruct Hk as (H1 & H2 & H3 & H4 & ->). cbn.
    rewrite length_app, samples_length. cbn.
    repeat split; try lia.
    + apply depth_before_hit; assumption.
    + exact H4.
  - right. destruct Hk as (H1 & H2 & H3 & H4 & H5 & ->). cbn.
    rewrite length_app, samples_length. cbn. repeat split; lia.
  - right. destruct Hk as (H1 & H2 & H3 & H4 & ->). cbn.
    rewrite samples_length, Nat.sub_0_r. unfold Shader.steps_after.
    repeat split; destruct k; lia.
Qed.

End RayMarchResults.

(** X11.  For a positive [maxDistance], [rayMarch] returns, and what it
    returns is one of two things.  Either a hit: a depth below [maxDistance]
    at which the scene distance is below [epsilon], with [steps] in
    [0 .. maxSteps-1] and [steps + 1] calls of [sceneSDF].  Or exactly
    [maxDistance], with [steps] between [0] and [maxSteps] and at most
    [maxSteps] calls.  So the test [dist < maxDistance] of [main] tells the
    two apart. *)
Theorem rayMarch_result_sound :
  forall (sceneSDF : Vec3.t -> R) (maxSteps : Z) (maxDistance epsilon : R)
         (ro rd : Vec3.t),
    0 < maxDistance ->
    exists m : Shader.March,
      Shader.rayMarch sceneSDF maxSteps maxDistance epsilon ro rd = Some m
      /\ ((Shader.ret m < maxDistance
           /\ Shader.ret m = Shader.depth m
           /\ sceneSDF (ray_point ro rd (Shader.ret m)) < epsilon
           /\ (0 <= Shader.steps m < maxSteps)%Z
           /\ List.length (Shader.calls m) = S (Z.to_nat (Shader.steps m)))
          \/ (Shader.ret m = maxDistance
              /\ (0 <= Shader.steps m <= Z.max 0 maxSteps)%Z
              /\ (List.length (Shader.calls m) <= Z.to_nat maxSteps)%nat)).
Proof.
  intros sceneSDF maxSteps maxDistance epsilon ro rd Hmax.
  destruct (rayMarch_total sceneSDF maxSteps maxDistance epsilon ro rd)
    as [m Hm].
  exists m. split; [exact Hm |].
  apply (rayMarch_result_cases sceneSDF maxSteps maxDistance epsilon ro rd);
    assumption.
Qed.

Lemma rayMarch_result_sound_witness :
  0 < 100
  /\ exists m : Shader.March,
       Shader.rayMarch (evaluate (Plane (Vec3.mk 0 0 1) (-1))) 100 100 0.001
         (Vec3.mk 0 0 5) (Vec3.mk 0 0 (-1)) = Some m
       /\ ((Shader.ret m < 100
            /\ Shader.ret m = Shader.depth m
            /\ evaluate (Plane (Vec3.mk 0 0 1) (-1))
                 (ray_point (Vec3.mk 0 0 5) (Vec3.mk 0 0 (-1)) (Shader.ret m))
               < 0.001
            /\ (0 <= Shader.steps m < 100)%Z
            /\ List.length (Shader.calls m) = S (Z.to_nat (Shader.steps m)))
           \/ (Shader.ret m = 100
               /\ (0 <= Shader.steps m <= Z.max 0 100)%Z
               /\ (List.length (Shader.calls m) <= Z.to_nat 100)%nat)).
Proof.
  split; [lra |].
  apply (rayMarch_result_sound (evaluate (Plane (Vec3.mk 0 0 1) (-1)))
           100 100 0.001 (Vec3.mk 0 0 5) (Vec3.mk 0 0 (-1))).
  lra.
Defined.

(** X12.  Whenever [main] takes its hit branch, the factor
    [mix(0.5, 1.0, 1 - steps/maxSteps)] it multiplies the colour by lies in
    the interval from one half (excluded) to one (included): no division by
    zero, and a hit is never darkened to half brightness or below. *)
Theorem hit_depth_scale_range :
  forall (sceneSDF : Vec3.t -> R) (maxSteps : Z) (maxDistance epsilon : R)
         (ro rd : Vec3.t),
    0 < maxDistance ->
    exists m : Shader.March,
      Shader.rayMarch sceneSDF maxSteps maxDistance epsilon ro rd = Some m
      /\ (Shader.ret m < maxDistance ->
          (0 < maxSteps)%Z
          /\ 1 / 2 < Shader.depthScale (Shader.steps m) maxSteps <= 1).
Proof.
  intros sceneSDF maxSteps maxDistance epsilon ro rd Hmax.
  destruct (rayMarch_total sceneSDF maxSteps maxDistance epsilon ro rd)
    as [m Hm].
  exists m. split; [exact Hm |]. intros Hhit.
  destruct (rayMarch_result_cases sceneSDF maxSteps maxDistance epsilon
              ro rd m Hmax Hm) as [(_ & _ & _ & Hs & _) | (He & _)];
    [| lra].
  split; [lia |].
  unfold Shader.depthScale, Shader.depthFactor, Shader.mix.
  assert (H0 : 0 <= IZR (Shader.steps m)) by (apply IZR_le; lia).
  assert (H1 : IZR (Shader.steps m) < IZR maxSteps) by (apply IZR_lt; lia).
  set (s := IZR (Shader.steps m)) in *. set (M := IZR maxSteps) in *.
  assert (Hq : 0 <= s / M < 1).
  { split.
    - apply Rmult_le_pos; [lra | left; apply Rinv_0_lt_compat; lra].
    - apply (Rmult_lt_reg_r M); [lra |].
      unfold Rdiv. rewrite Rmult_assoc, Rinv_l by lra. lra. }
  lra.
Qed.

Lemma hit_depth_scale_range_witness :
  0 < 100
  /\ exists m : Shader.March,
       Shader.rayMarch (evaluate (Plane (Vec3.mk 0 0 1) (-1))) 100 100 0.001
         (Vec3.mk 0 0 5) (Vec3.mk 0 0 (-1)) = Some m
       /\ (Shader.ret m < 100 ->
           (0 < 100)%Z
           /\ 1 / 2 < Shader.depthScale (Shader.steps m) 100 <= 1).
Proof.
  split; [lra |].
  apply (hit_depth_scale_range (evaluate (Plane (Vec3.mk 0 0 1) (-1)))
           100 100 0.001 (Vec3.mk 0 0 5) (Vec3.mk 0 0 (-1))).
  lra.
Defined.

(** ** Sphere tracing does not step through the surface *)

Section RayMarchSafety.

Variable sceneSDF : Vec3.t -> R.
Variable maxSteps : Z.
Variable maxDistance : R.
Variable epsilon : R.
Variables ro rd : Vec3.t.

Local Abbreviation depth_at := (Shader.depth_at sceneSDF ro rd).
Local Abbreviation dist_at := (Shader.dist_at sceneSDF ro rd).
Local Abbreviation continues :=
  (Shader.continues sceneSDF maxDistance epsilon ro rd).

Lemma ray_point_sub (t d : R) :
  Vec3.sub (ray_point ro rd t) (ray_point ro rd d) = Vec3.scale rd (t - d).
Proof.
  unfold ray_point, Shader.vadd, Shader.smul, Vec3.sub, Vec3.scale; cbn.
  f_equal; ring.
Qed.

Lemma ray_point_close (t d : R) :
  Lipschitz1 sceneSDF -> Vec3.length rd <= 1 ->
  Rabs (sceneSDF (ray_point ro rd t) - sceneSDF (ray_point ro rd d))
  <= Rabs (t - d).
Proof.
  intros HL Hrd. eapply Rle_trans; [apply HL |].
  rewrite ray_point_sub, length_scale.
  pose proof (Rabs_pos (t - d)). pose proof (length_pos rd). nra.
Qed.

(** The ray is outside the surface all the way to [depth_at n]. *)
Lemma free_before_depth (n : nat) :
  Lipschitz1 sceneSDF -> Vec3.length rd <= 1 ->
  forall t, 0 <= t < depth_at n -> 0 < sceneSDF (ray_point ro rd t).
Proof.
  intros HL Hrd. induction n as [| n IH]; intros t Ht.
  - cbn in Ht. lra.
  - destruct (Rlt_dec t (depth_at n)) as [Hlt | Hge]; [apply IH; lra |].
    cbn [Shader.depth_at] in Ht.
    pose proof (ray_point_close t (depth_at n) HL Hrd) as Hc.
    apply abs_le_bounds in Hc.
    rewrite (Rabs_pos_eq (t - depth_at n)) in Hc by lra.
    unfold ray_point in Hc at 2. lra.
Qed.

Lemma rayMarch_depth_is_depth_at (m : Shader.March) :
  Shader.rayMarch sceneSDF maxSteps maxDistance epsilon ro rd = Some m ->
  exists k, Shader.depth m = depth_at k.
Proof.
  intros H.
  destruct (rayMarch_inv sceneSDF maxSteps maxDistance epsilon ro rd m H)
    as [[k Hk] | [[k Hk] | [k Hk]]].
  - destruct Hk as (_ & _ & _ & _ & ->). exists k. reflexivity.
  - destruct Hk as (_ & _ & _ & _ & _ & ->). exists (S k). reflexivity.
  - destruct Hk as (_ & _ & _ & _ & ->). exists k. reflexivity.
Qed.

End RayMarchSafety.

(** X13.  If the scene function changes by at most the distance between two
    points and the ray direction is no longer than 1, the march never steps
    over the surface: the scene function is positive at every ray parameter
    below the depth the call stops at.  For a hit that depth is the returned
    distance, so the hit is the first place the ray comes within [epsilon]. *)
Theorem rayMarch_no_tunnelling :
  forall (sceneSDF : Vec3.t -> R) (maxSteps : Z) (maxDistance epsilon : R)
         (ro rd : Vec3.t),
    Lipschitz1 sceneSDF ->
    Vec3.length rd <= 1 ->
    exists m : Shader.March,
      Shader.rayMarch sceneSDF maxSteps maxDistance epsilon ro rd = Some m
      /\ forall t : R,
           0 <= t < Shader.depth m -> 0 < sceneSDF (ray_point ro rd t).
Proof.
  intros sceneSDF maxSteps maxDistance epsilon ro rd HL Hrd.
  destruct (rayMarch_total sceneSDF maxSteps maxDistance epsilon ro rd)
    as [m Hm].
  exists m. split; [exact Hm |].
  destruct (rayMarch_depth_is_depth_at sceneSDF maxSteps maxDistance epsilon
              ro rd m Hm) as [k ->].
  apply free_before_depth; assumption.
Qed.

Lemma length_0_0_1 : Vec3.length (Vec3.mk 0 0 1) = 1.
Proof.
  unfold Vec3.length, Std.sqrt; cbn.
  replace (0 * 0 + 0 * 0 + 1 * 1) with 1 by ring. apply sqrt_1.
Qed.

Lemma length_0_0_m1 : Vec3.length (Vec3.mk 0 0 (-1)) <= 1.
Proof.
  unfold Vec3.length, Std.sqrt; cbn.
  replace (0 * 0 + 0 * 0 + -1 * -1) with 1 by ring. rewrite sqrt_1. lra.
Qed.

Lemma rayMarch_no_tunnelling_witness :
  Lipschitz1 (evaluate (Plane (Vec3.mk 0 0 1) (-1)))
  /\ Vec3.length (Vec3.mk 0 0 (-1)) <= 1
  /\ exists m : Shader.March,
       Shader.rayMarch (evaluate (Plane (Vec3.mk 0 0 1) (-1))) 100 100 0.001
         (Vec3.mk 0 0 5) (Vec3.mk 0 0 (-1)) = Some m
       /\ forall t : R,
            0 <= t < Shader.depth m ->
            0 < evaluate (Plane (Vec3.mk 0 0 1) (-1))
                  (ray_point (Vec3.mk 0 0 5) (Vec3.mk 0 0 (-1)) t).
Proof.
  split; [exact (plane_unit_lipschitz _ (-1) length_0_0_1) |].
  split; [exact length_0_0_m1 |].
  exact (rayMarch_no_tunnelling (evaluate (Plane (Vec3.mk 0 0 1) (-1)))
           100 100 0.001 (Vec3.mk 0 0 5) (Vec3.mk 0 0 (-1))
           (plane_unit_lipschitz _ (-1) length_0_0_1) length_0_0_m1).
Defined.

(** ** The smooth operations of the object model *)

Lemma smooth_weight_far (k a b : R) :
  0 < k -> k <= Rabs (a - b) -> Rmax (k - Rabs (a - b)) 0 / k = 0.
Proof.
  intros Hk Hfar. rewrite Rmax_right by lra. unfold Rdiv. ring.
Qed.

(** X15.  For [k > 0] a smooth union never lies above the hard union and a
    smooth intersection or difference never below the hard one; and where the
    two values combined are at least [k] apart the smooth and the hard
    operation agree exactly. *)
Theorem smooth_one_sided :
  forall (l r : ImplicitSurface) (k : R) (p : Vec3.t),
    0 < k ->
    evaluate (SmoothUnionOp l r k) p <= evaluate (UnionOp l r) p
    /\ evaluate (IntersectionOp l r) p <= evaluate (SmoothIntersectionOp l r k) p
    /\ evaluate (DifferenceOp l r) p <= evaluate (SmoothDifferenceOp l r k) p
    /\ (k <= Rabs (evaluate l p - evaluate r p) ->
        evaluate (SmoothUnionOp l r k) p = evaluate (UnionOp l r) p
        /\ evaluate (SmoothIntersectionOp l r k) p
           = evaluate (IntersectionOp l r) p)
    /\ (k <= Rabs (evaluate l p + evaluate r p) ->
        evaluate (SmoothDifferenceOp l r k) p
        = evaluate (DifferenceOp l r) p).
Proof.
  intros l r k p Hk. cbn [evaluate].
  unfold SmoothUnionOp_combine, SmoothIntersectionOp_combine,
    SmoothDifferenceOp_combine, UnionOp_combine, IntersectionOp_combine,
    DifferenceOp_combine, Std.abs.
  rewrite !std_max_Rmax.
  generalize (evaluate l p) (evaluate r p). intros a b.
  pose proof (smooth_correction_range k a b Hk) as H1.
  pose proof (smooth_correction_range k a (- b) Hk) as H2.
  cbv zeta in H1, H2.
  split; [lra |]. split; [lra |]. split; [lra |]. split.
  - intros Hfar. rewrite (smooth_weight_far k a b Hk Hfar). split; ring.
  - intros Hfar.
    replace (a + b) with (a - - b) in Hfar by ring.
    rewrite (smooth_weight_far k a (- b) Hk Hfar). ring.
Qed.

Lemma smooth_one_sided_witness :
  0 < 1
  /\ evaluate (SmoothUnionOp (Plane (Vec3.mk 0 0 1) 0)
                             (Plane (Vec3.mk 0 1 0) 0) 1) Vec3.zero
     <= evaluate (UnionOp (Plane (Vec3.mk 0 0 1) 0)
                          (Plane (Vec3.mk 0 1 0) 0)) Vec3.zero.
Proof.
  split; [lra |].
  apply (smooth_one_sided (Plane (Vec3.mk 0 0 1) 0) (Plane (Vec3.mk 0 1 0) 0)
           1 Vec3.zero).
  lra.
Defined.

(** X16.  Smooth union and smooth intersection do not depend on the order of
    their children, and smooth intersection is smooth union seen through
    negation of the fields; both hold for every [k]. *)
Theorem smooth_commutative_dual :
  forall (l r : ImplicitSurface) (k : R) (p : Vec3.t),
    evaluate (SmoothUnionOp l r k) p = evaluate (SmoothUnionOp r l k) p
    /\ evaluate (SmoothIntersectionOp l r k) p
       = evaluate (SmoothIntersectionOp r l k) p
    /\ evaluate (SmoothIntersectionOp l r k) p
       = - SmoothUnionOp_combine k (- evaluate l p) (- evaluate r p).
Proof.
  intros l r k p. cbn [evaluate].
  unfold SmoothUnionOp_combine, SmoothIntersectionOp_combine, Std.abs.
  generalize (evaluate l p) (evaluate r p). intros a b.
  rewrite (Rabs_minus_sym b a).
  replace (- a - - b) with (b - a) by ring. rewrite (Rabs_minus_sym b a).
  set (h := Std.max (k - Rabs (a - b)) 0 / k).
  assert (Hmin : Std.min a b = Std.min b a)
    by (unfold Std.min; repeat case_Rlt; lra).
  assert (Hmax : Std.max a b = Std.max b a)
    by (unfold Std.max; repeat case_Rlt; lra).
  assert (Hdual : Std.max a b = - Std.min (- a) (- b))
    by (unfold Std.min, Std.max; repeat case_Rlt; lra).
  rewrite <- Hmin, <- Hmax, Hdual. repeat split; ring.
Qed.

(** X17.  The smooth operations are not idempotent: for [k > 0] the smooth
    union of a surface with itself is the surface grown by [k/6], and the
    smooth intersection with itself is the surface shrunk by [k/6]. *)
Theorem smooth_self_combination :
  forall (s : ImplicitSurface) (k : R) (p : Vec3.t),
    0 < k ->
    evaluate (SmoothUnionOp s s k) p = evaluate s p - k / 6
    /\ evaluate (SmoothIntersectionOp s s k) p = evaluate s p + k / 6.
Proof.
  intros s k p Hk. cbn [evaluate].
  unfold SmoothUnionOp_combine, SmoothIntersectionOp_combine, Std.abs.
  generalize (evaluate s p). intros a.
  replace (a - a) with 0 by ring. rewrite Rabs_R0, Rminus_0_r.
  rewrite !std_max_Rmax, std_min_Rmin.
  rewrite (Rmax_left k 0) by lra.
  unfold Rmin, Rmax. destruct (Rle_dec a a); [| lra].
  split; field; lra.
Qed.

Lemma smooth_self_combination_witness :
  0 < 0.2
  /\ evaluate (SmoothUnionOp (Sphere Vec3.zero 1) (Sphere Vec3.zero 1) 0.2)
       Vec3.zero
     = evaluate (Sphere Vec3.zero 1) Vec3.zero - 0.2 / 6.
Proof.
  split; [lra |].
  apply (smooth_self_combination (Sphere Vec3.zero 1) 0.2 Vec3.zero). lra.
Defined.

(** ** The smooth operations of the shader *)

Lemma clamp_half (q : R) :
  Shader.clamp (0.5 + 0.5 * q) 0 1
  = if Rle_dec q (-1) then 0 else if Rle_dec 1 q then 1 else 0.5 + 0.5 * q.
Proof.
  unfold Shader.clamp, Shader.min, Shader.max.
  destruct (Rle_dec q (-1)); destruct (Rle_dec 1 q);
    destruct (Rlt_dec (0.5 + 0.5 * q) 0);
    repeat match goal with
           | |- context [Rlt_dec ?a ?b] => destruct (Rlt_dec a b)
           end; lra.
Qed.

Lemma weight_cases (q : R) :
  Rmax (1 - Rabs q) 0
  = if Rle_dec q (-1) then 0 else if Rle_dec 1 q then 0
    else if Rle_dec 0 q then 1 - q else 1 + q.
Proof.
  unfold Rmax, Rabs.
  destruct (Rle_dec q (-1)); destruct (Rle_dec 1 q); destruct (Rle_dec 0 q);
    destruct (Rcase_abs q);
    repeat match goal with
           | |- context [Rle_dec ?a ?b] => destruct (Rle_dec a b)
           end; lra.
Qed.

(** The blend weight of the object model when [b = a + q k]. *)
Lemma weight_q (a q k : R) :
  0 < k ->
  Rmax (k - Rabs (a - (a + q * k))) 0 / k = Rmax (1 - Rabs q) 0.
Proof.
  intros Hk.
  replace (a - (a + q * k)) with (- q * k) by ring.
  rewrite Rabs_mult, Rabs_Ropp, (Rabs_pos_eq k) by lra.
  pose proof (Rabs_pos q) as Hq. set (A := Rabs q) in *.
  assert (Hsmall : A <= 1 -> 0 <= k - A * k) by (intros; nra).
  assert (Hlarge : 1 < A -> k - A * k < 0) by (intros; nra).
  destruct (Rle_dec A 1) as [H | H].
  - rewrite (Rmax_left (k - A * k) 0) by (apply Hsmall; exact H).
    rewrite (Rmax_left (1 - A) 0) by lra. field. lra.
  - rewrite (Rmax_right (k - A * k) 0) by (apply Rlt_le, Hlarge; lra).
    rewrite (Rmax_right (1 - A) 0) by lra. field. lra.
Qed.

Lemma shader_union_q (a q k : R) :
  0 < k ->
  Shader.smoothUnionOp a (a + q * k) k
  = Rmin a (a + q * k)
    - k * (Rmax (1 - Rabs q) 0 * Rmax (1 - Rabs q) 0) / 4.
Proof.
  intros Hk. unfold Shader.smoothUnionOp, Shader.mix.
  replace (0.5 + 0.5 * (a + q * k - a) / k) with (0.5 + 0.5 * q)
    by (field; lra).
  rewrite clamp_half, weight_cases.
  assert (Hn : q < 0 -> q * k < 0) by (intros; nra).
  assert (Hp : 0 <= q -> 0 <= q * k) by (intros; nra).
  unfold Rmin.
  destruct (Rle_dec q (-1));
    [| destruct (Rle_dec 1 q); [| destruct (Rle_dec 0 q)]];
    destruct (Rle_dec a (a + q * k));
    try (specialize (Hn ltac:(lra))); try (specialize (Hp ltac:(lra)));
    try lra; try (field_simplify; lra); try nra.
Qed.

Lemma shader_intersection_q (a q k : R) :
  0 < k ->
  Shader.smoothIntersectionOp a (a + q * k) k
  = Rmax a (a + q * k)
    + k * (Rmax (1 - Rabs q) 0 * Rmax (1 - Rabs q) 0) / 4.
Proof.
  intros Hk. unfold Shader.smoothIntersectionOp, Shader.mix.
  replace (0.5 - 0.5 * (a + q * k - a) / k) with (0.5 + 0.5 * - q)
    by (field; lra).
  rewrite clamp_half, weight_cases.
  assert (Hn : q < 0 -> q * k < 0) by (intros; nra).
  assert (Hp : 0 <= q -> 0 <= q * k) by (intros; nra).
  unfold Rmax.
  destruct (Rle_dec (- q) (-1));
    [| destruct (Rle_dec 1 (- q))];
    destruct (Rle_dec q (-1));
    try destruct (Rle_dec 1 q); try destruct (Rle_dec 0 q);
    destruct (Rle_dec a (a + q * k));
    try (specialize (Hn ltac:(lra))); try (specialize (Hp ltac:(lra)));
    try lra; try (field_simplify; lra); try nra.
Qed.

Lemma shader_union_closed (d1 d2 k : R) :
  0 < k ->
  let h := Rmax (k - Rabs (d1 - d2)) 0 / k in
  Shader.smoothUnionOp d1 d2 k = Rmin d1 d2 - k * (h * h) / 4.
Proof.
  intros Hk h. unfold h. clear h.
  set (q := (d2 - d1) / k).
  assert (E : d2 = d1 + q * k) by (unfold q; field; lra).
  clearbody q. subst d2.
  rewrite (weight_q d1 q k Hk). apply shader_union_q, Hk.
Qed.

Lemma shader_intersection_closed (d1 d2 k : R) :
  0 < k ->
  let h := Rmax (k - Rabs (d1 - d2)) 0 / k in
  Shader.smoothIntersectionOp d1 d2 k = Rmax d1 d2 + k * (h * h) / 4.
Proof.
  intros Hk h. unfold h. clear h.
  set (q := (d2 - d1) / k).
  assert (E : d2 = d1 + q * k) by (unfold q; field; lra).
  clearbody q. subst d2.
  rewrite (weight_q d1 q k Hk). apply shader_intersection_q, Hk.
Qed.

Lemma clamp_complement (s : R) :
  Shader.clamp (0.5 - 0.5 * s) 0 1 = 1 - Shader.clamp (0.5 + 0.5 * s) 0 1.
Proof.
  replace (0.5 - 0.5 * s) with (0.5 + 0.5 * - s) by ring.
  rewrite !clamp_half.
  destruct (Rle_dec (- s) (-1)); destruct (Rle_dec 1 (- s));
    destruct (Rle_dec s (-1)); destruct (Rle_dec 1 s); lra.
Qed.

Lemma shader_difference_as_intersection (d1 d2 k : R) :
  Shader.smoothDifferenceOp d1 d2 k = Shader.smoothIntersectionOp d1 (- d2) k.
Proof.
  unfold Shader.smoothDifferenceOp, Shader.smoothIntersectionOp, Shader.mix.
  replace (0.5 - 0.5 * (d2 + d1) / k) with (0.5 - 0.5 * ((d2 + d1) / k))
    by (unfold Rdiv; ring).
  replace (0.5 - 0.5 * (- d2 - d1) / k) with (0.5 + 0.5 * ((d2 + d1) / k))
    by (unfold Rdiv; ring).
  rewrite clamp_complement.
  set (h := Shader.clamp (0.5 + 0.5 * ((d2 + d1) / k)) 0 1). ring.
Qed.

Lemma square_unit_range (h : R) : 0 <= h <= 1 -> 0 <= h * h <= 1.
Proof. intros [H0 H1]. split; nra. Qed.

(** X18.  For [k > 0] the shader's smooth operations have the same shape as
    the object model's, with the same blend weight [h] but the quadratic
    correction [k h^2 / 4] in place of the cubic [k h^3 / 6]: union is
    [min - k h^2/4], intersection [max + k h^2/4], and difference is the
    intersection with the negated second value. *)
Theorem shader_smooth_closed_form :
  forall d1 d2 k : R,
    0 < k ->
    let h := Rmax (k - Rabs (d1 - d2)) 0 / k in
    let h' := Rmax (k - Rabs (d1 - - d2)) 0 / k in
    Shader.smoothUnionOp d1 d2 k = Rmin d1 d2 - k * (h * h) / 4
    /\ Shader.smoothIntersectionOp d1 d2 k = Rmax d1 d2 + k * (h * h) / 4
    /\ Shader.smoothDifferenceOp d1 d2 k
       = Rmax d1 (- d2) + k * (h' * h') / 4.
Proof.
  intros d1 d2 k Hk h h'. split; [| split].
  - apply shader_union_closed, Hk.
  - apply shader_intersection_closed, Hk.
  - rewrite shader_difference_as_intersection.
    apply shader_intersection_closed, Hk.
Qed.

Lemma shader_smooth_closed_form_witness :
  0 < 1
  /\ Shader.smoothUnionOp 0 0 1
     = Rmin 0 0 - 1 * (Rmax (1 - Rabs (0 - 0)) 0 / 1
                       * (Rmax (1 - Rabs (0 - 0)) 0 / 1)) / 4.
Proof.
  split; [lra |].
  apply (shader_smooth_closed_form 0 0 1). lra.
Defined.

(** X19.  For [k > 0] the shader's smooth union lies at most [k/4] below the
    hard union and never above it, its smooth intersection at most [k/4]
    above the hard intersection and never below it; each agrees with the
    hard operation where the two values are at least [k] apart, and neither
    depends on the order of its two values. *)
Theorem shader_smooth_near_hard :
  forall d1 d2 k : R,
    0 < k ->
    Shader.unionOp d1 d2 - k / 4 <= Shader.smoothUnionOp d1 d2 k
      <= Shader.unionOp d1 d2
    /\ Shader.intersectionOp d1 d2 <= Shader.smoothIntersectionOp d1 d2 k
         <= Shader.intersectionOp d1 d2 + k / 4
    /\ (k <= Rabs (d1 - d2) ->
        Shader.smoothUnionOp d1 d2 k = Shader.unionOp d1 d2
        /\ Shader.smoothIntersectionOp d1 d2 k = Shader.intersectionOp d1 d2)
    /\ Shader.smoothUnionOp d1 d2 k = Shader.smoothUnionOp d2 d1 k
    /\ Shader.smoothIntersectionOp d1 d2 k
       = Shader.smoothIntersectionOp d2 d1 k.
Proof.
  intros d1 d2 k Hk.
  assert (Hu : Shader.unionOp d1 d2 = Rmin d1 d2)
    by (unfold Shader.unionOp; apply std_min_Rmin).
  assert (Hi : Shader.intersectionOp d1 d2 = Rmax d1 d2)
    by (unfold Shader.intersectionOp; apply std_max_Rmax).
  rewrite Hu, Hi.
  rewrite (shader_union_closed d1 d2 k Hk),
    (shader_intersection_closed d1 d2 k Hk),
    (shader_union_closed d2 d1 k Hk),
    (shader_intersection_closed d2 d1 k Hk).
  rewrite (Rabs_minus_sym d2 d1), (Rmin_comm d2 d1), (Rmax_comm d2 d1).
  pose proof (square_unit_range _ (smooth_h_range k d1 d2 Hk)) as Hh.
  set (h := Rmax (k - Rabs (d1 - d2)) 0 / k) in *.
  assert (Hc : 0 <= k * (h * h) / 4 <= k / 4) by (split; nra).
  repeat split; try lra.
  - unfold h. rewrite (smooth_weight_far k d1 d2 Hk H). lra.
  - unfold h. rewrite (smooth_weight_far k d1 d2 Hk H). lra.
Qed.

Lemma shader_smooth_near_hard_witness :
  0 < 0.2
  /\ Shader.unionOp 1 1.1 - 0.2 / 4 <= Shader.smoothUnionOp 1 1.1 0.2
       <= Shader.unionOp 1 1.1.
Proof.
  split; [lra |].
  apply (shader_smooth_near_hard 1 1.1 0.2). lra.
Defined.

(** X20.  For [k > 0] the two smooth unions differ by at most [k/12], the
    shader's being the lower one, and by exactly [k/12] where the two values
    are equal; likewise for the smooth intersections, the shader's being the
    higher one. *)
Theorem shader_object_smooth_gap :
  forall d1 d2 k : R,
    0 < k ->
    0 <= SmoothUnionOp_combine k d1 d2 - Shader.smoothUnionOp d1 d2 k
      <= k / 12
    /\ 0 <= Shader.smoothIntersectionOp d1 d2 k
            - SmoothIntersectionOp_combine k d1 d2
         <= k / 12
    /\ SmoothUnionOp_combine k d1 d1 - Shader.smoothUnionOp d1 d1 k = k / 12
    /\ Shader.smoothIntersectionOp d1 d1 k
       - SmoothIntersectionOp_combine k d1 d1 = k / 12.
Proof.
  intros d1 d2 k Hk.
  assert (Hgap : forall a b,
    0 <= SmoothUnionOp_combine k a b - Shader.smoothUnionOp a b k <= k / 12
    /\ 0 <= Shader.smoothIntersectionOp a b k
            - SmoothIntersectionOp_combine k a b <= k / 12).
  { intros a b.
    rewrite (shader_union_closed a b k Hk),
      (shader_intersection_closed a b k Hk).
    unfold SmoothUnionOp_combine, SmoothIntersectionOp_combine, Std.abs.
    rewrite std_min_Rmin, !std_max_Rmax.
    pose proof (smooth_h_range k a b Hk) as [H0 H1].
    set (h := Rmax (k - Rabs (a - b)) 0 / k) in *.
    assert (Hlo : 0 <= k * (h * h * (3 - 2 * h))).
    { apply Rmult_le_pos; [lra |]. apply Rmult_le_pos; [nra | lra]. }
    assert (Hhi : 0 <= k * ((1 - h) * (1 - h) * (1 + 2 * h))).
    { apply Rmult_le_pos; [lra |]. apply Rmult_le_pos; [nra | lra]. }
    split; split; nra. }
  assert (Hself : Rmax (k - Rabs (d1 - d1)) 0 / k = 1).
  { replace (d1 - d1) with 0 by ring.
    rewrite Rabs_R0, Rminus_0_r, Rmax_left by lra. field. lra. }
  destruct (Hgap d1 d2) as [Hu Hi].
  split; [exact Hu |]. split; [exact Hi |].
  rewrite (shader_union_closed d1 d1 k Hk),
    (shader_intersection_closed d1 d1 k Hk).
  unfold SmoothUnionOp_combine, SmoothIntersectionOp_combine, Std.abs.
  rewrite std_min_Rmin, !std_max_Rmax, Hself. split; field.
Qed.

Lemma shader_object_smooth_gap_witness :
  0 < 0.2
  /\ 0 <= SmoothUnionOp_combine 0.2 1 1.1 - Shader.smoothUnionOp 1 1.1 0.2
       <= 0.2 / 12.
Proof.
  split; [lra |].
  apply (shader_object_smooth_gap 1 1.1 0.2). lra.
Defined.

(** X21.  In the shader, smooth difference is smooth intersection with the
    second value negated, for every [k] (zero and negative included), as it
    is in the object model. *)
Theorem shader_smooth_difference_is_intersection :
  forall d1 d2 k : R,
    Shader.smoothDifferenceOp d1 d2 k = Shader.smoothIntersectionOp d1 (- d2) k
    /\ Shader.differenceOp d1 d2 = Shader.intersectionOp d1 (- d2)
    /\ forall (l r : ImplicitSurface) (p : Vec3.t),
         evaluate (SmoothDifferenceOp l r k) p
         = SmoothIntersectionOp_combine k (evaluate l p) (- evaluate r p).
Proof.
  intros d1 d2 k. split; [apply shader_difference_as_intersection |].
  split; reflexivity.
Qed.

(** ** The generated scene code against the scene tree *)

Lemma sphere_matches_shader (c : Vec3.t) (r : R) (p : Vec3.t) :
  evaluate (Sphere c r) p = Shader.sphereSDF p c r.
Proof. reflexivity. Qed.

Lemma box_matches_shader (c d : Vec3.t) (s : R) (p : Vec3.t) :
  evaluate (Box c d s) p = Shader.boxSDF p c d - s.
Proof. reflexivity. Qed.

Lemma max_shift (s b e : R) :
  0 <= e ->
  0 <= Shader.max s b - Std.max s (b - e) <= e
  /\ 0 <= Std.max s (- (b - e)) - Shader.max s (- b) <= e.
Proof.
  intros He. unfold Shader.max, Std.max. split; repeat case_Rlt; lra.
Qed.

(** X22.  What a key press shows.  With a renderer installed, pressing 1 to 5
    or C installs a scene for which the renderer generates, in this order,
    the sphere, union, intersection, difference, complex and custom scene
    code; Escape only raises the close flag; any other key, any action other
    than a press, and any event before the renderer is installed change
    nothing. *)
Theorem key_selects_scene :
  forall (r : Renderer.t) (closing : bool),
    let app := mkApp (Some r) closing in
    let shown (a : App) :=
      option_map (fun r' => Renderer.generateSceneSDFCode (Renderer.scene r'))
                 (g_renderer a) in
    shown (keyCallback app GLFW_KEY_1 GLFW_PRESS) = Some Renderer.SphereScene
    /\ shown (keyCallback app GLFW_KEY_2 GLFW_PRESS)
       = Some Renderer.UnionScene
    /\ shown (keyCallback app GLFW_KEY_3 GLFW_PRESS)
       = Some Renderer.IntersectionScene
    /\ shown (keyCallback app GLFW_KEY_4 GLFW_PRESS)
       = Some Renderer.DifferenceScene
    /\ shown (keyCallback app GLFW_KEY_5 GLFW_PRESS)
       = Some Renderer.ComplexScene
    /\ shown (keyCallback app GLFW_KEY_C GLFW_PRESS)
       = Some Renderer.CustomScene
    /\ keyCallback app GLFW_KEY_ESCAPE GLFW_PRESS = mkApp (Some r) true
    /\ keyCallback app GLFW_KEY_other GLFW_PRESS = app
    /\ (forall (key : Key) (action : Action),
          action <> GLFW_PRESS -> keyCallback app key action = app)
    /\ (forall (key : Key) (action : Action),
          keyCallback (mkApp None closing) key action = mkApp None closing).
Proof.
  intros r closing app shown. unfold app, shown.
  repeat split; try reflexivity.
  - intros key action Hne. destruct action; try reflexivity. contradiction.
  - intros key action. destruct action; reflexivity.
Qed.

(** X23.  The generated scene code against the tree it is generated for, at
    every point.  For the sphere scene and the union scene the two fields are
    equal.  For the three scenes with a box they are not the same function:
    the tree's box carries the default smoothing [0.1], the generated code
    none, and the two fields are up to [0.1] apart (the code's field the
    higher one for the intersection, the lower one for the differences). *)
Theorem generated_scene_against_tree :
  forall p : Vec3.t,
    let gpu (s : ImplicitSurface) :=
      Renderer.sceneSDF_of (Renderer.generateSceneSDFCode (Some s)) p in
    gpu Renderer.createSphereScene = evaluate Renderer.createSphereScene p
    /\ gpu Renderer.createCSGUnionScene
       = evaluate Renderer.createCSGUnionScene p
    /\ 0 <= gpu Renderer.createCSGIntersectionScene
            - evaluate Renderer.createCSGIntersectionScene p <= 0.1
    /\ 0 <= evaluate Renderer.createCSGDifferenceScene p
            - gpu Renderer.createCSGDifferenceScene <= 0.1
    /\ 0 <= evaluate Renderer.createComplexCSGScene p
            - gpu Renderer.createComplexCSGScene <= 0.1.
Proof.
  intros p gpu. unfold gpu.
  assert (He : 0 <= 0.1) by lra.
  split; [reflexivity |]. split; [reflexivity |].
  split; [| split].
  - cbn [Renderer.generateSceneSDFCode Renderer.createCSGIntersectionScene
         Renderer.sceneSDF_of evaluate].
    unfold Shader.scene_intersection, Shader.intersectionOp,
      IntersectionOp_combine, default_smoothing. cbv zeta.
    change (Box_evaluate (Vec3.mk 0 0 0) (Vec3.mk 0.8 0.8 0.8) 0.1 p)
      with (Shader.boxSDF p (Vec3.mk 0 0 0) (Vec3.mk 0.8 0.8 0.8) - 0.1).
    change (Sphere_evaluate (Vec3.mk 0 0 0) 1 p)
      with (Shader.sphereSDF p (Vec3.mk 0 0 0) 1).
    apply (max_shift _ _ 0.1 He).
  - cbn [Renderer.generateSceneSDFCode Renderer.createCSGDifferenceScene
         Renderer.sceneSDF_of evaluate].
    unfold Shader.scene_difference, Shader.differenceOp,
      DifferenceOp_combine, default_smoothing. cbv zeta.
    change (Box_evaluate (Vec3.mk 0.5 0 0) (Vec3.mk 0.8 0.8 0.8) 0.1 p)
      with (Shader.boxSDF p (Vec3.mk 0.5 0 0) (Vec3.mk 0.8 0.8 0.8) - 0.1).
    change (Sphere_evaluate (Vec3.mk 0 0 0) 1 p)
      with (Shader.sphereSDF p (Vec3.mk 0 0 0) 1).
    apply (max_shift _ _ 0.1 He).
  - cbn [Renderer.generateSceneSDFCode Renderer.createComplexCSGScene
         Renderer.sceneSDF_of evaluate].
    unfold Shader.scene_complex, Shader.differenceOp, Shader.unionOp,
      DifferenceOp_combine, UnionOp_combine, default_smoothing. cbv zeta.
    change (Box_evaluate (Vec3.mk 0 0 0) (Vec3.mk 0.8 0.8 0.8) 0.1 p)
      with (Shader.boxSDF p (Vec3.mk 0 0 0) (Vec3.mk 0.8 0.8 0.8) - 0.1).
    change (Std.min (Sphere_evaluate (Vec3.mk (-1) 0 0) 1.2 p)
                    (Sphere_evaluate (Vec3.mk 1 0 0) 1.2 p))
      with (Shader.min (Shader.sphereSDF p (Vec3.mk (-1) 0 0) 1.2)
                       (Shader.sphereSDF p (Vec3.mk 1 0 0) 1.2)).
    apply (max_shift _ _ 0.1 He).
Qed.

Lemma shader_length_from_origin (c : Vec3.t) :
  Shader.length (Shader.vsub c (Vec3.mk 0 0 0)) = Vec3.length c.
Proof.
  unfold Shader.length, Shader.vsub, Vec3.length, Std.sqrt; cbn.
  f_equal. ring.
Qed.

Lemma length_to_origin (c : Vec3.t) :
  Vec3.length (Vec3.sub (Vec3.mk 0 0 0) c) = Vec3.length c.
Proof.
  unfold Vec3.length, Vec3.sub, Std.sqrt; cbn. f_equal. ring.
Qed.

(** X24.  The code generated for a scene whose root is a [Sphere] ignores the
    sphere's centre and radius: it describes that sphere, at every point, if
    and only if the centre is the origin and the radius is 1. *)
Theorem generated_sphere_faithful_iff :
  forall (center : Vec3.t) (radius : R),
    (forall p : Vec3.t,
        Renderer.sceneSDF_of
          (Renderer.generateSceneSDFCode (Some (Sphere center radius))) p
        = evaluate (Sphere center radius) p)
    <-> center = Vec3.zero /\ radius = 1.
Proof.
  intros center radius. split.
  - intros H.
    pose proof (H center) as Hc. pose proof (H (Vec3.mk 0 0 0)) as H0.
    cbn [Renderer.generateSceneSDFCode Renderer.sceneSDF_of evaluate]
      in Hc, H0.
    unfold Shader.scene_sphere, Shader.sphereSDF, Sphere_evaluate in Hc, H0.
    rewrite shader_length_from_origin, sub_self, length_zero in Hc.
    rewrite shader_length_from_origin in H0.
    change (Vec3.length (Vec3.mk 0 0 0)) with (Vec3.length Vec3.zero) in H0.
    rewrite length_zero, length_to_origin in H0.
    pose proof (length_pos center) as Hp.
    assert (Hl : Vec3.length center = 0) by lra.
    split; [apply length_zero_iff, Hl | lra].
  - intros [-> ->] p. reflexivity.
Qed.

(** ** Cylinder and Box keep the sphere-tracing bound *)

Lemma sq_le_of_abs_le (a b : R) : Rabs a <= Rabs b -> a * a <= b * b.
Proof.
  unfold Rabs. destruct (Rcase_abs a), (Rcase_abs b); intros; nra.
Qed.

Lemma length_mono (u v : Vec3.t) :
  Rabs (Vec3.x u) <= Rabs (Vec3.x v) ->
  Rabs (Vec3.y u) <= Rabs (Vec3.y v) ->
  Rabs (Vec3.z u) <= Rabs (Vec3.z v) ->
  Vec3.length u <= Vec3.length v.
Proof.
  intros Hx Hy Hz.
  apply Rsqr_le_nonneg; [apply length_pos | apply length_pos |].
  rewrite !length_square.
  apply sq_le_of_abs_le in Hx, Hy, Hz. lra.
Qed.

Lemma length_diff_le' (a b : Vec3.t) :
  Vec3.length a - Vec3.length b <= Vec3.length (Vec3.sub a b).
Proof.
  pose proof (length_diff_le a b) as H. apply abs_le_bounds in H. lra.
Qed.

(** The closest point of the segment [start + axis * t], [0 <= t <= L], for a
    unit [axis], is at the clamped projection. *)
Lemma closest_on_axis (s a p : Vec3.t) (L t : R) :
  Vec3.length a = 1 -> 0 <= t <= L ->
  Vec3.length
    (Vec3.sub p (Vec3.add s
       (Vec3.scale a (Std.max 0 (Std.min L (Vec3.dot (Vec3.sub p s) a))))))
  <= Vec3.length (Vec3.sub p (Vec3.add s (Vec3.scale a t))).
Proof.
  intros Ha Ht.
  apply Rsqr_le_nonneg; [apply length_pos | apply length_pos |].
  rewrite !length_square.
  pose proof (dot_self a) as Hu. rewrite Ha in Hu. unfold Vec3.dot in Hu.
  set (tau := Vec3.dot (Vec3.sub p s) a).
  set (c := Std.max 0 (Std.min L tau)).
  assert (Hexp : forall u : R,
    Vec3.x (Vec3.sub p (Vec3.add s (Vec3.scale a u)))
      * Vec3.x (Vec3.sub p (Vec3.add s (Vec3.scale a u)))
    + Vec3.y (Vec3.sub p (Vec3.add s (Vec3.scale a u)))
      * Vec3.y (Vec3.sub p (Vec3.add s (Vec3.scale a u)))
    + Vec3.z (Vec3.sub p (Vec3.add s (Vec3.scale a u)))
      * Vec3.z (Vec3.sub p (Vec3.add s (Vec3.scale a u)))
    = Vec3.dot (Vec3.sub p s) (Vec3.sub p s) - tau * tau
      + (u - tau) * (u - tau)
      + u * u * (Vec3.x a * Vec3.x a + Vec3.y a * Vec3.y a
                 + Vec3.z a * Vec3.z a - 1)).
  { intros u. unfold tau, Vec3.dot, Vec3.sub, Vec3.add, Vec3.scale.
    cbn [Vec3.x Vec3.y Vec3.z]. ring. }
  rewrite (Hexp c), (Hexp t), Hu.
  assert (Hc : (c - tau) * (c - tau) <= (t - tau) * (t - tau)).
  { apply sq_le_of_abs_le. unfold c, Std.max, Std.min.
    repeat case_Rlt; unfold Rabs;
      destruct (Rcase_abs _); destruct (Rcase_abs _); lra. }
  nra.
Qed.

Lemma cylinder_dot_range (start end_ p : Vec3.t) :
  0 <= Cylinder_dot start end_ p <= Vec3.length (Vec3.sub end_ start).
Proof.
  unfold Cylinder_dot. cbv zeta.
  pose proof (length_pos (Vec3.sub end_ start)) as HL.
  unfold Std.max, Std.min. repeat case_Rlt; lra.
Qed.

Lemma cylinder_degenerate_value (start : Vec3.t) (radius : R) (p : Vec3.t) :
  evaluate (Cylinder start start radius) p
  = evaluate (Sphere start radius) p.
Proof.
  cbn [evaluate].
  unfold Cylinder_evaluate, Cylinder_closestPoint, Cylinder_dot,
    Cylinder_axis, Sphere_evaluate. cbv zeta.
  rewrite sub_self, normalize_zero, length_zero, std_clamp_zero,
    add_scale_zero.
  reflexivity.
Qed.

Lemma cylinder_le (start end_ : Vec3.t) (radius : R) (p q : Vec3.t) :
  Vec3.length (Vec3.sub end_ start) <> 0 ->
  evaluate (Cylinder start end_ radius) p
  - evaluate (Cylinder start end_ radius) q
  <= Vec3.length (Vec3.sub p q).
Proof.
  intros Hne. cbn [evaluate]. unfold Cylinder_evaluate. cbv zeta.
  pose proof (length_normalize _ Hne) as Ha.
  pose proof (cylinder_dot_range start end_ q) as Hq.
  pose proof (closest_on_axis start (Cylinder_axis start end_) p
                (Vec3.length (Vec3.sub end_ start))
                (Cylinder_dot start end_ q) Ha Hq) as Hmin.
  fold (Cylinder_axis start end_) in Hmin.
  change (Vec3.add start
            (Vec3.scale (Cylinder_axis start end_)
               (Std.max 0
                  (Std.min (Vec3.length (Vec3.sub end_ start))
                     (Vec3.dot (Vec3.sub p start)
                        (Cylinder_axis start end_))))))
    with (Cylinder_closestPoint start end_ p) in Hmin.
  change (Vec3.add start
            (Vec3.scale (Cylinder_axis start end_)
                        (Cylinder_dot start end_ q)))
    with (Cylinder_closestPoint start end_ q) in Hmin.
  pose proof (length_diff_le'
                (Vec3.sub p (Cylinder_closestPoint start end_ q))
                (Vec3.sub q (Cylinder_closestPoint start end_ q))) as Htri.
  rewrite sub_sub_common in Htri. lra.
Qed.

Lemma cylinder_lipschitz_aux (start end_ : Vec3.t) (radius : R) :
  Lipschitz1 (evaluate (Cylinder start end_ radius)).
Proof.
  destruct (Req_dec_T (Vec3.length (Vec3.sub end_ start)) 0) as [He | Hne].
  - apply length_zero_iff in He.
    assert (Heq : end_ = start).
    { destruct end_ as [a b c], start as [a' b' c'].
      unfold Vec3.sub, Vec3.zero in He; cbn in He.
      injection He as H1 H2 H3. f_equal; lra. }
    subst end_. intros p q. rewrite !cylinder_degenerate_value.
    apply sphere_lipschitz_aux.
  - intros p q. apply Rabs_le. split.
    + pose proof (cylinder_le start end_ radius q p Hne) as H.
      rewrite (length_sub_sym q p) in H. lra.
    + apply cylinder_le, Hne.
Qed.

(** The points of the segment, written with the unit axis the code uses:
    [start + (end - start) * u] is [start + axis * (u * length)]. *)
Lemma cylinder_axis_scale (start end_ : Vec3.t) (u : R) :
  Vec3.length (Vec3.sub end_ start) <> 0 ->
  Vec3.scale (Cylinder_axis start end_)
    (u * Vec3.length (Vec3.sub end_ start))
  = Vec3.scale (Vec3.sub end_ start) u.
Proof.
  intros Hne. unfold Cylinder_axis, Vec3.normalize. cbv zeta.
  destruct (Req_dec_T (Vec3.length (Vec3.sub end_ start)) 0) as [He | _];
    [contradiction |].
  unfold Vec3.scale; cbn [Vec3.x Vec3.y Vec3.z].
  f_equal; field; exact Hne.
Qed.

Lemma segment_degenerate (start : Vec3.t) (t : R) :
  Vec3.add start (Vec3.scale (Vec3.sub start start) t) = start.
Proof.
  destruct start as [a b c]. unfold Vec3.add, Vec3.scale, Vec3.sub; cbn.
  f_equal; ring.
Qed.

(** The value of a proper cylinder is attained on the segment ... *)
Lemma cylinder_value_attained (start end_ : Vec3.t) (radius : R)
    (p : Vec3.t) :
  Vec3.length (Vec3.sub end_ start) <> 0 ->
  exists t : R,
    0 <= t <= 1
    /\ evaluate (Cylinder start end_ radius) p
       = Vec3.length
           (Vec3.sub p
              (Vec3.add start (Vec3.scale (Vec3.sub end_ start) t)))
         - radius.
Proof.
  intros Hne.
  pose proof (length_pos (Vec3.sub end_ start)) as HL.
  pose proof (cylinder_dot_range start end_ p) as Hr.
  set (L := Vec3.length (Vec3.sub end_ start)) in *.
  exists (Cylinder_dot start end_ p / L). split.
  - split.
    + apply Rmult_le_pos; [lra |].
      apply Rlt_le, Rinv_0_lt_compat. lra.
    + apply (Rmult_le_reg_r L); [lra |].
      unfold Rdiv. rewrite Rmult_assoc, Rinv_l by exact Hne. lra.
  - rewrite <- (cylinder_axis_scale start end_ _ Hne). fold L.
    replace (Cylinder_dot start end_ p / L * L)
      with (Cylinder_dot start end_ p) by (field; exact Hne).
    reflexivity.
Qed.

(** ... and no point of the segment is nearer. *)
Lemma cylinder_value_least (start end_ : Vec3.t) (radius : R)
    (p : Vec3.t) (t : R) :
  Vec3.length (Vec3.sub end_ start) <> 0 ->
  0 <= t <= 1 ->
  evaluate (Cylinder start end_ radius) p
  <= Vec3.length
       (Vec3.sub p (Vec3.add start (Vec3.scale (Vec3.sub end_ start) t)))
     - radius.
Proof.
  intros Hne Ht.
  pose proof (length_pos (Vec3.sub end_ start)) as HL.
  rewrite <- (cylinder_axis_scale start end_ t Hne).
  assert (Hrange : 0 <= t * Vec3.length (Vec3.sub end_ start)
                   <= Vec3.length (Vec3.sub end_ start)) by nra.
  pose proof (closest_on_axis start (Cylinder_axis start end_) p
                (Vec3.length (Vec3.sub end_ start))
                (t * Vec3.length (Vec3.sub end_ start))
                (length_normalize _ Hne) Hrange) as Hmin.
  cbn [evaluate].
  unfold Cylinder_evaluate, Cylinder_closestPoint, Cylinder_dot.
  cbv zeta. lra.
Qed.

(** X25.  The field of a [Cylinder] changes by at most the distance between
    two points, for every pair of end points (coinciding ones included) and
    every radius: the value is the distance to the nearest point of the
    segment, less the radius.  The points of the segment are
    [start + (end - start) * t] for [0 <= t <= 1]: the value is attained at
    one of them and exceeded at none. *)
Theorem cylinder_distance_to_segment :
  forall (start end_ : Vec3.t) (radius : R),
    Lipschitz1 (evaluate (Cylinder start end_ radius))
    /\ forall p : Vec3.t,
         (exists t : R,
             0 <= t <= 1
             /\ evaluate (Cylinder start end_ radius) p
                = Vec3.length
                    (Vec3.sub p
                       (Vec3.add start
                          (Vec3.scale (Vec3.sub end_ start) t)))
                  - radius)
         /\ (forall t : R,
               0 <= t <= 1 ->
               evaluate (Cylinder start end_ radius) p
               <= Vec3.length
                    (Vec3.sub p
                       (Vec3.add start
                          (Vec3.scale (Vec3.sub end_ start) t)))
                  - radius).
Proof.
  intros start end_ radius.
  split; [apply cylinder_lipschitz_aux |].
  intros p.
  destruct (Req_dec_T (Vec3.length (Vec3.sub end_ start)) 0) as [He | Hne].
  - apply length_zero_iff in He.
    assert (Heq : end_ = start).
    { destruct end_ as [a b c], start as [a' b' c'].
      unfold Vec3.sub, Vec3.zero in He; cbn in He.
      injection He as H1 H2 H3. f_equal; lra. }
    subst end_. split.
    + exists 0. split; [lra |].
      rewrite segment_degenerate, cylinder_degenerate_value. reflexivity.
    + intros t _.
      rewrite segment_degenerate, cylinder_degenerate_value.
      cbn [evaluate]. unfold Sphere_evaluate. cbv zeta. lra.
  - split.
    + apply cylinder_value_attained, Hne.
    + intros t Ht. apply cylinder_value_least; assumption.
Qed.

Local Abbreviation box_core dx dy dz :=
  (Vec3.length (Vec3.mk (Std.max dx 0) (Std.max dy 0) (Std.max dz 0))
   + Std.min (Std.max dx (Std.max dy dz)) 0).

Lemma box_core_outside_value (dx dy dz : R) :
  0 < dx \/ 0 < dy \/ 0 < dz ->
  box_core dx dy dz
  = Vec3.length (Vec3.mk (Std.max dx 0) (Std.max dy 0) (Std.max dz 0)).
Proof.
  intros H.
  assert (Hm : Std.min (Std.max dx (Std.max dy dz)) 0 = 0).
  { rewrite !std_max_Rmax, std_min_Rmin. apply Rmin_right.
    pose proof (Rmax_l dx (Rmax dy dz)). pose proof (Rmax_r dx (Rmax dy dz)).
    pose proof (Rmax_l dy dz). pose proof (Rmax_r dy dz).
    destruct H as [H | [H | H]]; lra. }
  rewrite Hm. ring.
Qed.

Lemma max_pos_close (d e : R) :
  Rabs (Std.max d 0 - Std.max e 0) <= Rabs (d - e).
Proof.
  unfold Std.max. repeat case_Rlt;
    unfold Rabs; destruct (Rcase_abs _); destruct (Rcase_abs _); lra.
Qed.

Lemma max_pos_square (d e m : R) :
  0 <= m -> e <= - m ->
  Std.max d 0 * Std.max d 0 + 2 * m * Std.max d 0 <= (d - e) * (d - e)
  /\ (0 < d ->
      Std.max d 0 * Std.max d 0 + 2 * m * Std.max d 0 + m * m
      <= (d - e) * (d - e)).
Proof.
  intros Hm He. unfold Std.max. destruct (Rlt_dec d 0) as [Hd | Hd].
  - pose proof (Rle_0_sqr (d - e)) as Hs. unfold Rsqr in Hs.
    split; [nra | intros; lra].
  - assert (Hp : 0 <= (d - e - (d + m)) * (d - e + (d + m)))
      by (apply Rmult_le_pos; lra).
    assert (Hq : 0 <= m * m) by nra.
    split; [| intros _]; nra.
Qed.

Lemma inside_or_outside (dx dy dz : R) :
  (dx <= 0 /\ dy <= 0 /\ dz <= 0) \/ (0 < dx \/ 0 < dy \/ 0 < dz).
Proof.
  destruct (Rle_dec dx 0), (Rle_dec dy 0), (Rle_dec dz 0);
    first [ left; repeat split; lra
          | right; left; lra
          | right; right; left; lra
          | right; right; right; lra ].
Qed.

Lemma box_core_le (dx dy dz ex ey ez : R) :
  box_core dx dy dz - box_core ex ey ez
  <= Vec3.length (Vec3.mk (dx - ex) (dy - ey) (dz - ez)).
Proof.
  set (v := Vec3.mk (dx - ex) (dy - ey) (dz - ez)).
  pose proof (length_pos v) as Hlen.
  assert (Hx : Rabs (dx - ex) <= Vec3.length v) by apply (abs_x_le_length v).
  assert (Hy : Rabs (dy - ey) <= Vec3.length v) by apply (abs_y_le_length v).
  assert (Hz : Rabs (dz - ez) <= Vec3.length v) by apply (abs_z_le_length v).
  apply abs_le_bounds in Hx, Hy, Hz.
  destruct (inside_or_outside dx dy dz) as [(Dx & Dy & Dz) | Dout];
    destruct (inside_or_outside ex ey ez) as [(Ex & Ey & Ez) | Eout].
  - rewrite !box_core_inside by assumption.
    unfold Rmax. repeat destruct (Rle_dec _ _); lra.
  - rewrite box_core_inside by assumption.
    pose proof (box_core_outside ex ey ez Eout) as He.
    assert (Rmax dx (Rmax dy dz) <= 0)
      by (apply Rmax_lub; [| apply Rmax_lub]; assumption).
    lra.
  - rewrite box_core_outside_value by assumption.
    rewrite (box_core_inside ex ey ez) by assumption.
    set (m := - Rmax ex (Rmax ey ez)).
    assert (Hm : 0 <= m)
      by (unfold m;
          assert (Rmax ex (Rmax ey ez) <= 0)
            by (apply Rmax_lub; [| apply Rmax_lub]; assumption);
          lra).
    assert (Hex : ex <= - m)
      by (unfold m; pose proof (Rmax_l ex (Rmax ey ez)); lra).
    assert (Hey : ey <= - m)
      by (unfold m; pose proof (Rmax_r ex (Rmax ey ez));
          pose proof (Rmax_l ey ez); lra).
    assert (Hez : ez <= - m)
      by (unfold m; pose proof (Rmax_r ex (Rmax ey ez));
          pose proof (Rmax_r ey ez); lra).
    replace (Rmax ex (Rmax ey ez)) with (- m) by (unfold m; ring).
    set (w := Vec3.mk (Std.max dx 0) (Std.max dy 0) (Std.max dz 0)).
    pose proof (length_pos w) as HW. pose proof (length_square w) as HW2.
    pose proof (length_square v) as HV2.
    unfold w in HW2; cbn [Vec3.x Vec3.y Vec3.z] in HW2.
    unfold v in HV2; cbn [Vec3.x Vec3.y Vec3.z] in HV2.
    fold w in HW2. fold v in HV2.
    destruct (max_pos_square dx ex m Hm Hex) as [Cx Cx'].
    destruct (max_pos_square dy ey m Hm Hey) as [Cy Cy'].
    destruct (max_pos_square dz ez m Hm Hez) as [Cz Cz'].
    assert (W1 : 0 <= Std.max dx 0) by (unfold Std.max; case_Rlt).
    assert (W2 : 0 <= Std.max dy 0) by (unfold Std.max; case_Rlt).
    assert (W3 : 0 <= Std.max dz 0) by (unfold Std.max; case_Rlt).
    set (w1 := Std.max dx 0) in *. set (w2 := Std.max dy 0) in *.
    set (w3 := Std.max dz 0) in *.
    assert (Hsum : Vec3.length w <= w1 + w2 + w3)
      by (apply Rsqr_le_nonneg; [exact HW | lra | rewrite HW2; nra]).
    assert (Hprod : 0 <= m * (w1 + w2 + w3 - Vec3.length w))
      by (apply Rmult_le_pos; lra).
    assert (Hgoal : (Vec3.length w + m) * (Vec3.length w + m)
                    <= Vec3.length v * Vec3.length v).
    { rewrite HV2.
      destruct Dout as [D | [D | D]];
        [specialize (Cx' D) | specialize (Cy' D) | specialize (Cz' D)];
        nra. }
    assert (Vec3.length w + m <= Vec3.length v)
      by (apply Rsqr_le_nonneg; [lra | exact Hlen | exact Hgoal]).
    lra.
  - rewrite !box_core_outside_value by assumption.
    eapply Rle_trans; [apply length_diff_le' |].
    apply length_mono; unfold Vec3.sub, v; cbn [Vec3.x Vec3.y Vec3.z];
      apply max_pos_close.
Qed.

Lemma abs_diff_close (a b c : R) :
  Rabs (Rabs (a - c) - Rabs (b - c)) <= Rabs (a - b).
Proof.
  unfold Rabs. repeat destruct (Rcase_abs _); lra.
Qed.

Lemma box_le (center dimensions : Vec3.t) (smoothing : R) (p q : Vec3.t) :
  evaluate (Box center dimensions smoothing) p
  - evaluate (Box center dimensions smoothing) q
  <= Vec3.length (Vec3.sub p q).
Proof.
  cbn [evaluate]. unfold Box_evaluate, Std.abs. cbv zeta.
  cbn [Vec3.x Vec3.y Vec3.z].
  set (dx := Rabs (Vec3.x p - Vec3.x center) - Vec3.x dimensions).
  set (dy := Rabs (Vec3.y p - Vec3.y center) - Vec3.y dimensions).
  set (dz := Rabs (Vec3.z p - Vec3.z center) - Vec3.z dimensions).
  set (ex := Rabs (Vec3.x q - Vec3.x center) - Vec3.x dimensions).
  set (ey := Rabs (Vec3.y q - Vec3.y center) - Vec3.y dimensions).
  set (ez := Rabs (Vec3.z q - Vec3.z center) - Vec3.z dimensions).
  pose proof (box_core_le dx dy dz ex ey ez) as Hcore.
  assert (Hmono : Vec3.length (Vec3.mk (dx - ex) (dy - ey) (dz - ez))
                  <= Vec3.length (Vec3.sub p q)).
  { apply length_mono; unfold Vec3.sub; cbn [Vec3.x Vec3.y Vec3.z];
      unfold dx, dy, dz, ex, ey, ez.
    - replace (Rabs (Vec3.x p - Vec3.x center) - Vec3.x dimensions
               - (Rabs (Vec3.x q - Vec3.x center) - Vec3.x dimensions))
        with (Rabs (Vec3.x p - Vec3.x center)
              - Rabs (Vec3.x q - Vec3.x center)) by ring.
      apply abs_diff_close.
    - replace (Rabs (Vec3.y p - Vec3.y center) - Vec3.y dimensions
               - (Rabs (Vec3.y q - Vec3.y center) - Vec3.y dimensions))
        with (Rabs (Vec3.y p - Vec3.y center)
              - Rabs (Vec3.y q - Vec3.y center)) by ring.
      apply abs_diff_close.
    - replace (Rabs (Vec3.z p - Vec3.z center) - Vec3.z dimensions
               - (Rabs (Vec3.z q - Vec3.z center) - Vec3.z dimensions))
        with (Rabs (Vec3.z p - Vec3.z center)
              - Rabs (Vec3.z q - Vec3.z center)) by ring.
      apply abs_diff_close. }
  lra.
Qed.

Lemma box_lipschitz_aux (center dimensions : Vec3.t) (smoothing : R) :
  Lipschitz1 (evaluate (Box center dimensions smoothing)).
Proof.
  intros p q. apply Rabs_le. split.
  - pose proof (box_le center dimensions smoothing q p) as H.
    rewrite (length_sub_sym q p) in H. lra.
  - apply box_le.
Qed.

(** X26.  The field of a [Box] changes by at most the distance between two
    points, for every centre, every half-extents (negative ones included)
    and every smoothing. *)
Theorem box_lipschitz :
  forall (center dimensions : Vec3.t) (smoothing : R),
    Lipschitz1 (evaluate (Box center dimensions smoothing)).
Proof. exact box_lipschitz_aux. Qed.

(** ** The predefined scenes are marched without stepping through them *)

Lemma sphereSDF_close (c : Vec3.t) (r : R) (p q : Vec3.t) :
  Rabs (Shader.sphereSDF p c r - Shader.sphereSDF q c r)
  <= Vec3.length (Vec3.sub p q).
Proof. apply (sphere_lipschitz_aux c r p q). Qed.

Lemma boxSDF_close (c d p q : Vec3.t) :
  Rabs (Shader.boxSDF p c d - Shader.boxSDF q c d)
  <= Vec3.length (Vec3.sub p q).
Proof.
  pose proof (box_lipschitz_aux c d 0 p q) as H.
  rewrite !box_matches_shader in H.
  replace (Shader.boxSDF p c d - 0 - (Shader.boxSDF q c d - 0))
    with (Shader.boxSDF p c d - Shader.boxSDF q c d) in H by ring.
  exact H.
Qed.

Lemma shader_max_close (D a a' b b' : R) :
  Rabs (a - a') <= D -> Rabs (b - b') <= D ->
  Rabs (Shader.max a b - Shader.max a' b') <= D.
Proof. apply max_close. Qed.

Lemma shader_min_close (D a a' b b' : R) :
  Rabs (a - a') <= D -> Rabs (b - b') <= D ->
  Rabs (Shader.min a b - Shader.min a' b') <= D.
Proof. apply min_close. Qed.

Lemma generated_scene_lipschitz (code : Renderer.SceneCode) :
  code <> Renderer.CustomScene -> Lipschitz1 (Renderer.sceneSDF_of code).
Proof.
  intros Hne p q. destruct code; cbn [Renderer.sceneSDF_of];
    try contradiction.
  - unfold Shader.scene_empty. replace (1000 - 1000) with 0 by ring.
    rewrite Rabs_R0. apply length_pos.
  - unfold Shader.scene_sphere. apply sphereSDF_close.
  - unfold Shader.scene_union, Shader.unionOp. cbv zeta.
    apply shader_min_close; apply sphereSDF_close.
  - unfold Shader.scene_intersection, Shader.intersectionOp. cbv zeta.
    apply shader_max_close; [apply sphereSDF_close | apply boxSDF_close].
  - unfold Shader.scene_difference, Shader.differenceOp. cbv zeta.
    apply shader_max_close;
      [apply sphereSDF_close | apply opp_close, boxSDF_close].
  - unfold Shader.scene_complex, Shader.differenceOp, Shader.unionOp.
    cbv zeta.
    apply shader_max_close;
      [apply shader_min_close; apply sphereSDF_close
      | apply opp_close, boxSDF_close].
Qed.

(** X27.  The code generated for the empty scene and for the five predefined
    scenes (every scene code but the custom one) defines a field that changes
    by at most the distance between two points; so for a ray direction no
    longer than 1 the march of such a scene never steps through its surface:
    the field is positive at every ray parameter below the depth reached. *)
Theorem predefined_scenes_march_safely :
  forall (code : Renderer.SceneCode) (maxSteps : Z) (maxDistance epsilon : R)
         (ro rd : Vec3.t),
    code <> Renderer.CustomScene ->
    Vec3.length rd <= 1 ->
    Lipschitz1 (Renderer.sceneSDF_of code)
    /\ exists m : Shader.March,
         Shader.rayMarch (Renderer.sceneSDF_of code) maxSteps maxDistance
           epsilon ro rd = Some m
         /\ forall t : R,
              0 <= t < Shader.depth m ->
              0 < Renderer.sceneSDF_of code (ray_point ro rd t).
Proof.
  intros code maxSteps maxDistance epsilon ro rd Hne Hrd.
  pose proof (generated_scene_lipschitz code Hne) as HL.
  split; [exact HL |].
  destruct (rayMarch_total (Renderer.sceneSDF_of code) maxSteps maxDistance
              epsilon ro rd) as [m Hm].
  exists m. split; [exact Hm |].
  destruct (rayMarch_depth_is_depth_at (Renderer.sceneSDF_of code) maxSteps
              maxDistance epsilon ro rd m Hm) as [k ->].
  apply free_before_depth; assumption.
Qed.

Lemma predefined_scenes_march_safely_witness :
  Renderer.IntersectionScene <> Renderer.CustomScene
  /\ Vec3.length (Vec3.mk 0 0 (-1)) <= 1
  /\ Lipschitz1 (Renderer.sceneSDF_of Renderer.IntersectionScene)
  /\ exists m : Shader.March,
       Shader.rayMarch (Renderer.sceneSDF_of Renderer.IntersectionScene)
         100 50 0.001 (Vec3.mk 0 0 5) (Vec3.mk 0 0 (-1)) = Some m
       /\ forall t : R,
            0 <= t < Shader.depth m ->
            0 < Renderer.sceneSDF_of Renderer.IntersectionScene
                  (ray_point (Vec3.mk 0 0 5) (Vec3.mk 0 0 (-1)) t).
Proof.
  assert (Hne : Renderer.IntersectionScene <> Renderer.CustomScene)
    by discriminate.
  split; [exact Hne |]. split; [exact length_0_0_m1 |].
  exact (predefined_scenes_march_safely Renderer.IntersectionScene 100 50
           0.001 (Vec3.mk 0 0 5) (Vec3.mk 0 0 (-1)) Hne length_0_0_m1).
Defined.

(** ** The fragment shader: rays, lighting and the pixel colour *)

Lemma shader_normalize_eq (v : Vec3.t) :
  Vec3.length v <> 0 -> Shader.normalize v = Vec3.normalize v.
Proof.
  intros H. rewrite (normalize_nonzero_length v H). reflexivity.
Qed.

Lemma shader_normalize_unit (v : Vec3.t) :
  Vec3.length v <> 0 -> Vec3.length (Shader.normalize v) = 1.
Proof.
  intros H. rewrite (shader_normalize_eq v H). apply length_normalize, H.
Qed.

Lemma normalize_of_unit (v : Vec3.t) :
  Vec3.length v = 1 -> Shader.normalize v = v.
Proof.
  intros H. unfold Shader.normalize.
  change (Shader.length v) with (Vec3.length v). rewrite H.
  destruct v as [a b c]; cbn. f_equal; field.
Qed.

Lemma dot_normalize_l (c f : Vec3.t) :
  Vec3.dot (Shader.normalize c) f = Vec3.dot c f / Shader.length c.
Proof.
  unfold Vec3.dot, Shader.normalize; cbn [Vec3.x Vec3.y Vec3.z].
  unfold Rdiv. ring.
Qed.

Lemma cross_dot_l (a b : Vec3.t) : Vec3.dot (Shader.cross a b) a = 0.
Proof. unfold Vec3.dot, Shader.cross; cbn. ring. Qed.

Lemma cross_dot_r (a b : Vec3.t) : Vec3.dot (Shader.cross a b) b = 0.
Proof. unfold Vec3.dot, Shader.cross; cbn. ring. Qed.

Lemma dot_combination (f r u : Vec3.t) (alpha beta : R) :
  Vec3.dot (Shader.vadd (Shader.vadd f (Shader.smul alpha r))
                        (Shader.smul beta u)) f
  = Vec3.dot f f + alpha * Vec3.dot r f + beta * Vec3.dot u f.
Proof.
  unfold Vec3.dot, Shader.vadd, Shader.smul; cbn. ring.
Qed.

(** X28.  When the camera is not at its target, its up vector is not along
    the viewing direction and the viewport has a height, every primary ray
    direction has length exactly 1, and the ray through the centre of the
    screen ([uv = (0.5, 0.5)]) is the viewing direction itself. *)
Theorem getRayDir_unit :
  forall (resolution_x resolution_y uv_x uv_y : R)
         (camPos camTarget camUp : Vec3.t) (fov : R),
    let forward := Shader.normalize (Shader.vsub camTarget camPos) in
    Vec3.length (Shader.vsub camTarget camPos) <> 0 ->
    Vec3.length (Shader.cross forward camUp) <> 0 ->
    resolution_y <> 0 ->
    Vec3.length (Shader.getRayDir resolution_x resolution_y uv_x uv_y
                   camPos camTarget camUp fov) = 1
    /\ Shader.getRayDir resolution_x resolution_y 0.5 0.5
         camPos camTarget camUp fov = forward.
Proof.
  intros rx ry uv_x uv_y camPos camTarget camUp fov forward Hcam Hup Hry.
  assert (Hf : Vec3.length forward = 1)
    by (apply shader_normalize_unit, Hcam).
  assert (Hff : Vec3.dot forward forward = 1)
    by (rewrite dot_self, Hf; ring).
  set (right := Shader.normalize (Shader.cross forward camUp)).
  set (up := Shader.cross right forward).
  assert (Hrf : Vec3.dot right forward = 0).
  { unfold right. rewrite dot_normalize_l, cross_dot_l. unfold Rdiv. ring. }
  assert (Huf : Vec3.dot up forward = 0) by apply cross_dot_r.
  assert (Hdir : forall alpha beta,
            Vec3.length
              (Shader.normalize
                 (Shader.vadd (Shader.vadd forward (Shader.smul alpha right))
                              (Shader.smul beta up))) = 1).
  { intros alpha beta. apply shader_normalize_unit.
    set (v := Shader.vadd (Shader.vadd forward (Shader.smul alpha right))
                          (Shader.smul beta up)).
    assert (Hv : Vec3.dot v forward = 1).
    { unfold v. rewrite dot_combination, Hff, Hrf, Huf. ring. }
    pose proof (dot_le_lengths v forward) as Hcs.
    rewrite Hv, Hf in Hcs. lra. }
  split.
  - unfold Shader.getRayDir. cbv zeta. apply Hdir.
  - unfold Shader.getRayDir. cbv zeta. fold forward. fold right. fold up.
    replace (2 * 0.5 - 1) with 0 by lra.
    transitivity (Shader.normalize forward);
      [| apply normalize_of_unit, Hf].
    f_equal. destruct forward as [a b c].
    unfold Shader.vadd, Shader.smul; cbn. f_equal; ring.
Qed.

Lemma length_default_view :
  Vec3.length (Shader.vsub (Vec3.mk 0 0 0) (Vec3.mk 0 0 5)) <> 0.
Proof.
  unfold Vec3.length, Shader.vsub, Std.sqrt; cbn.
  apply Rgt_not_eq, Rlt_gt, sqrt_lt_R0. lra.
Qed.

Lemma default_forward :
  Shader.normalize (Shader.vsub (Vec3.mk 0 0 0) (Vec3.mk 0 0 5))
  = Vec3.mk 0 0 (-1).
Proof.
  unfold Shader.normalize, Shader.length, Shader.vsub; cbn.
  replace ((0 - 0) * (0 - 0) + (0 - 0) * (0 - 0) + (0 - 5) * (0 - 5))
    with (Rsqr 5) by (unfold Rsqr; ring).
  rewrite sqrt_Rsqr by lra. f_equal; field.
Qed.

Lemma length_default_right :
  Vec3.length
    (Shader.cross
       (Shader.normalize (Shader.vsub (Vec3.mk 0 0 0) (Vec3.mk 0 0 5)))
       (Vec3.mk 0 1 0)) <> 0.
Proof.
  rewrite default_forward.
  unfold Vec3.length, Shader.cross, Std.sqrt; cbn.
  apply Rgt_not_eq, Rlt_gt, sqrt_lt_R0. lra.
Qed.

Lemma getRayDir_unit_witness :
  Vec3.length (Shader.vsub (Vec3.mk 0 0 0) (Vec3.mk 0 0 5)) <> 0
  /\ Vec3.length
       (Shader.cross
          (Shader.normalize (Shader.vsub (Vec3.mk 0 0 0) (Vec3.mk 0 0 5)))
          (Vec3.mk 0 1 0)) <> 0
  /\ 600 <> 0
  /\ Vec3.length (Shader.getRayDir 800 600 0.25 0.75
                    (Vec3.mk 0 0 5) (Vec3.mk 0 0 0) (Vec3.mk 0 1 0) 45) = 1
  /\ Shader.getRayDir 800 600 0.5 0.5
       (Vec3.mk 0 0 5) (Vec3.mk 0 0 0) (Vec3.mk 0 1 0) 45
     = Shader.normalize (Shader.vsub (Vec3.mk 0 0 0) (Vec3.mk 0 0 5)).
Proof.
  assert (H600 : 600 <> 0) by lra.
  split; [exact length_default_view |].
  split; [exact length_default_right |].
  split; [exact H600 |].
  exact (getRayDir_unit 800 600 0.25 0.75
           (Vec3.mk 0 0 5) (Vec3.mk 0 0 0) (Vec3.mk 0 1 0) 45
           length_default_view length_default_right H600).
Defined.

Lemma vneg_length (v : Vec3.t) : Vec3.length (Shader.vneg v) = Vec3.length v.
Proof.
  unfold Vec3.length, Shader.vneg, Std.sqrt; cbn. f_equal. ring.
Qed.

Lemma reflect_length_le (I N : Vec3.t) :
  Vec3.length N <= 1 -> Vec3.length (Shader.reflect I N) <= Vec3.length I.
Proof.
  intros HN.
  apply Rsqr_le_nonneg; [apply length_pos | apply length_pos |].
  rewrite !length_square.
  pose proof (length_pos N) as HN0. pose proof (length_square N) as HN2.
  set (d := Shader.dot N I).
  assert (Hexp :
    Vec3.x (Shader.reflect I N) * Vec3.x (Shader.reflect I N)
    + Vec3.y (Shader.reflect I N) * Vec3.y (Shader.reflect I N)
    + Vec3.z (Shader.reflect I N) * Vec3.z (Shader.reflect I N)
    = Vec3.x I * Vec3.x I + Vec3.y I * Vec3.y I + Vec3.z I * Vec3.z I
      - 4 * (d * d)
        * (1 - (Vec3.x N * Vec3.x N + Vec3.y N * Vec3.y N
                + Vec3.z N * Vec3.z N))).
  { unfold d, Shader.reflect, Shader.vsub, Shader.smul, Shader.dot.
    cbn [Vec3.x Vec3.y Vec3.z]. ring. }
  rewrite Hexp, <- HN2.
  assert (H1 : 0 <= 1 - Vec3.length N * Vec3.length N) by nra.
  assert (H2 : 0 <= d * d) by nra.
  assert (H3 : 0 <= 4 * (d * d) * (1 - Vec3.length N * Vec3.length N))
    by (apply Rmult_le_pos; [lra | exact H1]).
  lra.
Qed.

Lemma max0_unit (a : R) : Rabs a <= 1 -> 0 <= Shader.max a 0 <= 1.
Proof.
  intros H. apply abs_le_bounds in H. unfold Shader.max. case_Rlt.
Qed.

Lemma pow32_unit (x : R) : 0 <= x <= 1 -> 0 <= Shader.pow32 x <= 1.
Proof.
  intros H. unfold Shader.pow32. split.
  - apply pow_le. lra.
  - rewrite <- (pow1 32). apply pow_incr. exact H.
Qed.

Lemma shadowFactor_range (lightPosition p n : Vec3.t) (d : R) :
  1 / 2 <= Shader.shadowFactor lightPosition p n d <= 1.
Proof. unfold Shader.shadowFactor. destruct (Rlt_dec _ _); lra. Qed.

Lemma lit_channel (amb L d s sh : R) :
  0 <= L -> 0 <= d <= 1 -> 0 <= s <= 1 -> 1 / 2 <= sh <= 1 ->
  amb * L <= amb * L + (d * L + 0.5 * s * L) * sh <= (amb + 1.5) * L.
Proof.
  intros HL Hd Hs Hsh.
  assert (H1 : 0 <= d * L <= L) by (split; nra).
  assert (H2 : 0 <= s * L <= L) by (split; nra).
  assert (H3 : 0 <= d * L + 0.5 * s * L <= 1.5 * L) by lra.
  split; nra.
Qed.

Lemma calculateLighting_returns
    (sceneSDF : Vec3.t -> R) (lightPosition lightColor : Vec3.t)
    (ambientStrength : R) (maxSteps : Z) (maxDistance epsilon : R)
    (p n viewDir : Vec3.t) :
  exists shadowDist2 : R,
    Shader.calculateLighting sceneSDF lightPosition lightColor
      ambientStrength maxSteps maxDistance epsilon p n viewDir
    = Some (Shader.vadd (Shader.ambient lightColor ambientStrength)
              (Shader.vscale
                 (Shader.vadd (Shader.diffuse lightPosition lightColor p n)
                    (Shader.specular lightPosition lightColor p n viewDir))
                 (Shader.shadowFactor lightPosition p n shadowDist2))).
Proof.
  unfold Shader.calculateLighting. cbv zeta.
  destruct (rayMarch_total sceneSDF maxSteps maxDistance epsilon
              (Shader.shadowPos p n)
              (Shader.normalize
                 (Shader.vsub lightPosition (Shader.shadowPos p n))))
    as [m Hm].
  rewrite Hm. exists (Shader.ret m). reflexivity.
Qed.

(** X29.  [calculateLighting] returns, and with a non-negative light colour,
    a light that is not at the shaded point, and a normal and a view
    direction no longer than 1, every channel of the colour it returns lies
    between the ambient term [ambientStrength * lightColor] and
    [(ambientStrength + 1.5) * lightColor]. *)
Theorem calculateLighting_range :
  forall (sceneSDF : Vec3.t -> R) (lightPosition lightColor : Vec3.t)
         (ambientStrength : R) (maxSteps : Z) (maxDistance epsilon : R)
         (p n viewDir : Vec3.t),
    0 <= Vec3.x lightColor ->
    0 <= Vec3.y lightColor ->
    0 <= Vec3.z lightColor ->
    Vec3.length (Shader.vsub lightPosition p) <> 0 ->
    Vec3.length n <= 1 ->
    Vec3.length viewDir <= 1 ->
    exists c : Vec3.t,
      Shader.calculateLighting sceneSDF lightPosition lightColor
        ambientStrength maxSteps maxDistance epsilon p n viewDir = Some c
      /\ ambientStrength * Vec3.x lightColor <= Vec3.x c
           <= (ambientStrength + 1.5) * Vec3.x lightColor
      /\ ambientStrength * Vec3.y lightColor <= Vec3.y c
           <= (ambientStrength + 1.5) * Vec3.y lightColor
      /\ ambientStrength * Vec3.z lightColor <= Vec3.z c
           <= (ambientStrength + 1.5) * Vec3.z lightColor.
Proof.
  intros sceneSDF lightPosition lightColor ambientStrength maxSteps
    maxDistance epsilon p n viewDir Hx Hy Hz Hlight Hn Hv.
  destruct (calculateLighting_returns sceneSDF lightPosition lightColor
              ambientStrength maxSteps maxDistance epsilon p n viewDir)
    as [sd Hc].
  eexists. split; [exact Hc |].
  pose proof (shadowFactor_range lightPosition p n sd) as Hsh.
  set (sh := Shader.shadowFactor lightPosition p n sd) in *.
  pose proof (shader_normalize_unit _ Hlight) as Hl.
  fold (Shader.lightDir lightPosition p) in Hl.
  set (l := Shader.lightDir lightPosition p) in *.
  assert (Hd : 0 <= Shader.max (Shader.dot n l) 0 <= 1).
  { apply max0_unit.
    pose proof (abs_dot_le_lengths n l) as H. rewrite Hl in H.
    change (Shader.dot n l) with (Vec3.dot n l).
    pose proof (length_pos n). nra. }
  set (r := Shader.reflect (Shader.vneg l) n).
  assert (Hr : Vec3.length r <= 1).
  { unfold r. eapply Rle_trans; [apply reflect_length_le, Hn |].
    rewrite vneg_length, Hl. lra. }
  assert (Hs : 0 <= Shader.pow32 (Shader.max (Shader.dot viewDir r) 0) <= 1).
  { apply pow32_unit, max0_unit.
    pose proof (abs_dot_le_lengths viewDir r) as H.
    change (Shader.dot viewDir r) with (Vec3.dot viewDir r).
    pose proof (length_pos viewDir). pose proof (length_pos r). nra. }
  unfold Shader.vadd, Shader.vscale, Shader.ambient, Shader.diffuse,
    Shader.specular, Shader.smul. cbv zeta.
  cbn [Vec3.x Vec3.y Vec3.z]. fold l. fold r.
  repeat split; apply lit_channel; assumption.
Qed.

Lemma length_light_3_5_5 :
  Vec3.length (Shader.vsub (Vec3.mk 3 5 5) (Vec3.mk 0 0 1)) <> 0.
Proof.
  unfold Vec3.length, Shader.vsub, Std.sqrt; cbn.
  apply Rgt_not_eq, Rlt_gt, sqrt_lt_R0. lra.
Qed.

Lemma length_0_0_1_le : Vec3.length (Vec3.mk 0 0 1) <= 1.
Proof. rewrite length_0_0_1. lra. Qed.

Lemma calculateLighting_range_witness :
  0 <= Vec3.x (Vec3.mk 1 1 1)
  /\ Vec3.length (Shader.vsub (Vec3.mk 3 5 5) (Vec3.mk 0 0 1)) <> 0
  /\ Vec3.length (Vec3.mk 0 0 1) <= 1
  /\ exists c : Vec3.t,
       Shader.calculateLighting Shader.scene_sphere (Vec3.mk 3 5 5)
         (Vec3.mk 1 1 1) 0.1 100 100 0.001
         (Vec3.mk 0 0 1) (Vec3.mk 0 0 1) (Vec3.mk 0 0 1) = Some c
       /\ 0.1 * Vec3.x (Vec3.mk 1 1 1) <= Vec3.x c
            <= (0.1 + 1.5) * Vec3.x (Vec3.mk 1 1 1)
       /\ 0.1 * Vec3.y (Vec3.mk 1 1 1) <= Vec3.y c
            <= (0.1 + 1.5) * Vec3.y (Vec3.mk 1 1 1)
       /\ 0.1 * Vec3.z (Vec3.mk 1 1 1) <= Vec3.z c
            <= (0.1 + 1.5) * Vec3.z (Vec3.mk 1 1 1).
Proof.
  assert (H1 : 0 <= 1) by lra.
  split; [exact H1 |]. split; [exact length_light_3_5_5 |].
  split; [exact length_0_0_1_le |].
  exact (calculateLighting_range Shader.scene_sphere (Vec3.mk 3 5 5)
           (Vec3.mk 1 1 1) 0.1 100 100 0.001
           (Vec3.mk 0 0 1) (Vec3.mk 0 0 1) (Vec3.mk 0 0 1)
           H1 H1 H1 length_light_3_5_5 length_0_0_1_le length_0_0_1_le).
Defined.

Lemma mix_between (a b t : R) :
  a <= b -> 0 <= t <= 1 -> a <= Shader.mix a b t <= b.
Proof. intros Hab Ht. unfold Shader.mix. split; nra. Qed.

(** X30.  For a positive [maxDistance], [main] writes a colour for every
    pixel, with alpha 1.  When the primary march misses, the colour is the
    background gradient, a function of [uv.y] alone whose channels stay
    between those of the two fixed colours for [uv.y] in [0, 1].  When it
    hits, the colour is the lit colour of the hit point multiplied by a
    factor between one half (excluded) and one. *)
Theorem main_pixel :
  forall (sceneSDF : Vec3.t -> R)
         (cameraPosition cameraTarget cameraUp : Vec3.t)
         (fieldOfView resolution_x resolution_y : R)
         (lightPosition lightColor : Vec3.t) (ambientStrength : R)
         (maxSteps : Z) (maxDistance epsilon : R) (uv_x uv_y : R),
    let rd := Shader.getRayDir resolution_x resolution_y uv_x uv_y
                cameraPosition cameraTarget cameraUp fieldOfView in
    0 < maxDistance ->
    exists (m : Shader.March) (color : Vec3.t),
      Shader.rayMarch sceneSDF maxSteps maxDistance epsilon
        cameraPosition rd = Some m
      /\ Shader.main sceneSDF cameraPosition cameraTarget cameraUp
           fieldOfView resolution_x resolution_y lightPosition lightColor
           ambientStrength maxSteps maxDistance epsilon uv_x uv_y
         = Some (color, 1)
      /\ (~ Shader.ret m < maxDistance ->
          color = Shader.backgroundColor uv_y)
      /\ (Shader.ret m < maxDistance ->
          let p := Shader.vadd cameraPosition
                     (Shader.vscale rd (Shader.ret m)) in
          exists lit : Vec3.t,
            Shader.calculateLighting sceneSDF lightPosition lightColor
              ambientStrength maxSteps maxDistance epsilon
              p (Shader.sceneNormal sceneSDF p) (Shader.vneg rd) = Some lit
            /\ color
               = Shader.vscale lit
                   (Shader.depthScale (Shader.steps m) maxSteps)
            /\ 1 / 2 < Shader.depthScale (Shader.steps m) maxSteps <= 1)
      /\ (0 <= uv_y <= 1 ->
          0.1 <= Vec3.x (Shader.backgroundColor uv_y) <= 0.2
          /\ 0.1 <= Vec3.y (Shader.backgroundColor uv_y) <= 0.3
          /\ 0.2 <= Vec3.z (Shader.backgroundColor uv_y) <= 0.4).
Proof.
  intros sceneSDF cameraPosition cameraTarget cameraUp fieldOfView
    resolution_x resolution_y lightPosition lightColor ambientStrength
    maxSteps maxDistance epsilon uv_x uv_y rd Hmax.
  assert (Hbg : 0 <= uv_y <= 1 ->
          0.1 <= Vec3.x (Shader.backgroundColor uv_y) <= 0.2
          /\ 0.1 <= Vec3.y (Shader.backgroundColor uv_y) <= 0.3
          /\ 0.2 <= Vec3.z (Shader.backgroundColor uv_y) <= 0.4).
  { intros Huv. unfold Shader.backgroundColor, Shader.vmix.
    cbn [Vec3.x Vec3.y Vec3.z].
    repeat split; apply mix_between; lra || exact Huv. }
  destruct (rayMarch_total sceneSDF maxSteps maxDistance epsilon
              cameraPosition rd) as [m Hm].
  exists m. unfold Shader.main. cbv zeta. fold rd. rewrite Hm.
  destruct (Rlt_dec (Shader.ret m) maxDistance) as [Hhit | Hmiss].
  - set (p := Shader.vadd cameraPosition (Shader.vscale rd (Shader.ret m))).
    destruct (calculateLighting_returns sceneSDF lightPosition lightColor
                ambientStrength maxSteps maxDistance epsilon p
                (Shader.sceneNormal sceneSDF p) (Shader.vneg rd))
      as [sd Hlit].
    rewrite Hlit. eexists. split; [reflexivity |].
    split; [reflexivity |]. split; [intros; contradiction |].
    split; [| exact Hbg].
    intros _. eexists. split; [reflexivity |]. split; [reflexivity |].
    destruct (rayMarch_result_cases sceneSDF maxSteps maxDistance epsilon
                cameraPosition rd m Hmax Hm)
      as [(_ & _ & _ & Hs & _) | (He & _)]; [| lra].
    unfold Shader.depthScale, Shader.depthFactor, Shader.mix.
    assert (H0 : 0 <= IZR (Shader.steps m)) by (apply IZR_le; lia).
    assert (H1 : IZR (Shader.steps m) < IZR maxSteps)
      by (apply IZR_lt; lia).
    set (s := IZR (Shader.steps m)) in *. set (M := IZR maxSteps) in *.
    assert (Hq : 0 <= s / M < 1).
    { split.
      - apply Rmult_le_pos; [lra | left; apply Rinv_0_lt_compat; lra].
      - apply (Rmult_lt_reg_r M); [lra |].
        unfold Rdiv. rewrite Rmult_assoc, Rinv_l by lra. lra. }
    lra.
  - eexists. split; [reflexivity |]. split; [reflexivity |].
    split; [reflexivity |]. split; [intros; contradiction | exact Hbg].
Qed.

Lemma main_pixel_witness :
  0 < 100
  /\ exists (m : Shader.March) (color : Vec3.t),
       Shader.rayMarch Shader.scene_sphere 100 100 0.001 (Vec3.mk 0 0 5)
         (Shader.getRayDir 800 600 0.5 0.5
            (Vec3.mk 0 0 5) (Vec3.mk 0 0 0) (Vec3.mk 0 1 0) 45) = Some m
       /\ Shader.main Shader.scene_sphere
            (Vec3.mk 0 0 5) (Vec3.mk 0 0 0) (Vec3.mk 0 1 0) 45 800 600
            (Vec3.mk 3 5 5) (Vec3.mk 1 1 1) 0.1 100 100 0.001 0.5 0.5
          = Some (color, 1).
Proof.
  split; [lra |].
  destruct (main_pixel Shader.scene_sphere
              (Vec3.mk 0 0 5) (Vec3.mk 0 0 0) (Vec3.mk 0 1 0) 45 800 600
              (Vec3.mk 3 5 5) (Vec3.mk 1 1 1) 0.1 100 100 0.001 0.5 0.5
              ltac:(lra)) as (m & color & Hm & Hmain & _).
  exists m, color. split; assumption.
Defined.
